(** * PILFont: the metrics codec of a PIL bitmap font

    A shallow embedding of [src/PILFont.py].  The metrics file is a byte
    stream: two literal header segments around a decimal [ysize] field,
    then one 20-byte record of ten big-endian signed shorts per glyph.

    Python values are modelled as follows.
    - [bytes] is [list byte]; [int] is [Z]; a path is a [string].
    - An exception is a value of [exn]; code that may raise returns
      [result].
    - An open binary file is a [File]: its content and the position of the
      next read or write.  Code that uses a file object runs in the monad
      [IO], which threads the file and keeps it when an exception is
      raised (what was written before the exception stays written).
    - The image library is an interface: [Image_open], [Image_copy] and
      [Image_save] are variables of the section that defines [load] and
      [save].
    - The file system is a finite map from paths to contents, shared by
      the image library and the metrics files.

    Outside the model: a failure of [open] other than a missing file to
    read, the interpreter's limit on the number of digits that [str] and
    [int] convert, and a [glyphs] attribute that is not a list. *)

From Stdlib Require Import ZArith Strings.Byte String Ascii DecimalString.
From Stdlib Require DecimalZ.
From stdpp Require Import base list gmap strings.

Local Open Scope Z_scope.

(** ** Bytes *)

Definition Z_of_byte (b : byte) : Z := Z.of_N (Byte.to_N b).

(** The byte whose value is [z mod 256]. *)
Definition byte_of_Z (z : Z) : byte :=
  match Byte.of_N (Z.to_N (z mod 256)) with
  | Some b => b
  | None => x00
  end.

#[global] Instance byte_eq_dec : EqDecision byte.
Proof.
  intros a b. destruct (Byte.eqb a b) eqn:E.
  - left. apply Byte.byte_dec_bl, E.
  - right. apply Byte.eqb_false, E.
Defined.

Definition bytes_of_string (s : string) : list byte := list_byte_of_string s.

(** ** Exceptions *)

Inductive exn : Type :=
| PILFontParsingError (seek : nat) (expected actual : list byte)
    (** raised by [_check_header]; the message is
        [f"Incorrect header at {hex(seek)}: expected {expected}, got {actual}"] *)
| ValueError (literal : list byte)   (** [int(b)] on a malformed literal *)
| StructError                        (** [struct.error] *)
| OverflowError                      (** [int.to_bytes]: int too big to convert *)
| IndexError                         (** list index out of range *)
| FileNotFoundError (path : string)
| OSError (msg : string)             (** any failure of the image library *)
| OutOfFuel.                         (** not a Python exception: the loop of
                                         [load] ran out of fuel (never happens,
                                         see [decode_fuel]) *)

Inductive result (A : Type) : Type :=
| Ok (a : A)
| Raise (e : exn).
Arguments Ok {A} a.
Arguments Raise {A} e.

(** ** [struct.pack] and [struct.unpack] with format ["!10h"] *)

Definition in_int16 (v : Z) : Prop := -32768 <= v <= 32767.
Definition in_int16b (v : Z) : bool := (-32768 <=? v) && (v <=? 32767).

(** One ["!h"]: two bytes, most significant first, two's complement. *)
Definition pack_h (v : Z) : result (list byte) :=
  if in_int16b v
  then Ok [byte_of_Z (Z.land (Z.shiftr v 8) 255); byte_of_Z (Z.land v 255)]
  else Raise StructError.

Definition unpack_h (b0 b1 : byte) : Z :=
  let x := Z.lor (Z.shiftl (Z_of_byte b0) 8) (Z_of_byte b1) in
  if Z.testbit x 15 then x - 65536 else x.

Fixpoint pack_hs (vals : list Z) : result (list byte) :=
  match vals with
  | [] => Ok []
  | v :: vals' =>
      match pack_h v with
      | Raise e => Raise e
      | Ok hd =>
          match pack_hs vals' with
          | Raise e => Raise e
          | Ok tl => Ok (hd ++ tl)
          end
      end
  end.

(** [struct.pack] with format ["!10h"] on the values [vals]: ten values, each in the range of a short. *)
Definition struct_pack_10h (vals : list Z) : result (list byte) :=
  if Nat.eqb (length vals) 10 then pack_hs vals else Raise StructError.

Fixpoint unpack_hs (raw : list byte) : list Z :=
  match raw with
  | b0 :: b1 :: raw' => unpack_h b0 b1 :: unpack_hs raw'
  | _ => []
  end.

(** [struct.unpack("!10h", raw)]: the buffer must be exactly 20 bytes. *)
Definition struct_unpack_10h (raw : list byte) : result (list Z) :=
  if Nat.eqb (length raw) 20 then Ok (unpack_hs raw) else Raise StructError.

(** ** [int.to_bytes(length, "little")] *)

Fixpoint le_bytes (len : nat) (i : Z) : list byte :=
  match len with
  | O => []
  | S len' => byte_of_Z (i mod 256) :: le_bytes len' (i / 256)
  end.

Definition to_bytes_little (i : Z) (len : nat) : result (list byte) :=
  if i <? 0 then Raise OverflowError
  else if 256 ^ Z.of_nat len <=? i then Raise OverflowError
  else Ok (le_bytes len i).

(** ** [str(n).encode("utf-8")] and [int(b)] for a bytes object [b] *)

Definition str_encode (n : Z) : list byte :=
  bytes_of_string (NilZero.string_of_int (Z.to_int n)).

(** ASCII white space, as [int] skips it on both sides of the literal. *)
Definition is_space (b : byte) : bool :=
  match b with
  | x09 | x0a | x0b | x0c | x0d | x20 => true
  | _ => false
  end.

Definition digit_value (b : byte) : option Z :=
  let n := Z_of_byte b in
  if (48 <=? n) && (n <=? 57) then Some (n - 48) else None.

Definition is_underscore (b : byte) : bool :=
  match b with x5f => true | _ => false end.

Definition is_plus (b : byte) : bool :=
  match b with x2b => true | _ => false end.

Definition is_minus (b : byte) : bool :=
  match b with x2d => true | _ => false end.

(** Scans decimal digits, single underscores allowed between two digits.
    [prev_us] says that the previous character was an underscore.  Returns
    the value, the number of digits and the rest of the input. *)
Fixpoint scan_digits (s : list byte) (prev_us : bool) (acc : Z) (ndigits : nat)
  : option (Z * nat * list byte) :=
  match s with
  | b :: s' =>
      match digit_value b with
      | Some d => scan_digits s' false (10 * acc + d) (S ndigits)
      | None =>
          if is_underscore b
          then (if prev_us then None else scan_digits s' true acc ndigits)
          else (if prev_us then None else Some (acc, ndigits, s))
      end
  | [] => if prev_us then None else Some (acc, ndigits, s)
  end.

Fixpoint skip_space (s : list byte) : list byte :=
  match s with
  | b :: s' => if is_space b then skip_space s' else s
  | [] => []
  end.

(** [int(b)], base 10: optional white space, an optional sign, digits,
    optional white space, and nothing else. *)
Definition int_of_bytes (b : list byte) : result Z :=
  let s := skip_space b in
  let '(sign, s) :=
    match s with
    | c :: s' =>
        if is_plus c then (1, s')
        else if is_minus c then (-1, s')
        else (1, s)
    | [] => (1, s)
    end in
  if match s with c :: _ => is_underscore c | [] => false end
  then Raise (ValueError b)
  else
    match scan_digits s false 0 0 with
    | Some (v, S _, rest) =>
        match skip_space rest with
        | [] => Ok (sign * v)
        | _ => Raise (ValueError b)
        end
    | _ => Raise (ValueError b)
    end.

(** ** Binary file objects *)

Record File : Type := mkFile { data : list byte; pos : nat }.

(** [open(path, "rb")] on a file with content [content], and
    [open(path, "wb+")], which truncates. *)
Definition open_rb (content : list byte) : File := mkFile content 0.
Definition open_wb : File := mkFile [] 0.

Definition IO (A : Type) : Type := File -> result A * File.

Definition ret {A} (a : A) : IO A := fun fp => (Ok a, fp).
Definition raise {A} (e : exn) : IO A := fun fp => (Raise e, fp).
Definition bind {A B} (m : IO A) (k : A -> IO B) : IO B :=
  fun fp =>
    match m fp with
    | (Ok a, fp') => k a fp'
    | (Raise e, fp') => (Raise e, fp')
    end.
Definition lift {A} (r : result A) : IO A := fun fp => (r, fp).

Notation "'let*' x ':=' m 'in' k" := (bind m (fun x => k))
  (at level 10, x name, m at level 100, k at level 200, only parsing).
Notation "m '>>' k" := (bind m (fun _ => k))
  (at level 100, k at level 200, right associativity, only parsing).

(** [fp.tell()] *)
Definition fp_tell : IO nat := fun fp => (Ok (pos fp), fp).

(** [fp.read(n)]: up to [n] bytes from the current position. *)
Definition fp_read (n : nat) : IO (list byte) :=
  fun fp =>
    let chunk := take n (drop (pos fp) (data fp)) in
    (Ok chunk, mkFile (data fp) (pos fp + length chunk)).

(** [fp.write(b)]: overwrites or extends from the current position; a
    position past the end fills the gap with zero bytes. *)
Definition fp_write (b : list byte) : IO unit :=
  fun fp =>
    let before := take (pos fp) (data fp)
                    ++ replicate (pos fp - length (data fp)) x00 in
    let after := drop (pos fp + length b) (data fp) in
    (Ok tt, mkFile (before ++ b ++ after) (pos fp + length b)).

(** ** The header literals *)

Definition MAGIC : list byte :=
  bytes_of_string "PILfont" ++ [x0a] ++ bytes_of_string ";;;;;;".
Definition DATA : list byte :=
  bytes_of_string ";" ++ [x0a] ++ bytes_of_string "DATA" ++ [x0a].

(** ** [_check_header] *)

Definition _check_header (expected : list byte) : IO unit :=
  let* seek := fp_tell in
  let* actual := fp_read (length expected) in
  if decide (actual = expected) then ret tt
  else raise (PILFontParsingError seek expected actual).

(** ** [Glyph] *)

Record Glyph : Type := mkGlyph {
  character : list byte;
  delta : Z * Z;
  src_bbox : Z * Z * Z * Z;
  dst_bbox : Z * Z * Z * Z
}.

(** [Glyph.__iter__]: the values of [delta], then those of [dst_bbox], then
    those of [src_bbox]. *)
Definition Glyph_iter (self : Glyph) : list Z :=
  let '(dx, dy) := delta self in
  let '(dx0, dy0, dx1, dy1) := dst_bbox self in
  let '(sx0, sy0, sx1, sy1) := src_bbox self in
  [dx; dy; dx0; dy0; dx1; dy1; sx0; sy0; sx1; sy1].

(** ** The metrics half of [PILFont.load] *)

(** The body of the [for] loop for a chunk that is not empty: unpack the
    ten shorts and build the glyph numbered [i]. *)
Definition load_glyph (i : nat) (raw_glyph : list byte) : result Glyph :=
  match struct_unpack_10h raw_glyph with
  | Raise e => Raise e
  | Ok [dx; dy; dx0; dy0; dx1; dy1; sx0; sy0; sx1; sy1] =>
      match to_bytes_little (Z.of_nat i) 1 with
      | Raise e => Raise e
      | Ok c => Ok (mkGlyph c (dx, dy) (sx0, sy0, sx1, sy1) (dx0, dy0, dx1, dy1))
      end
  | Ok _ => Raise (ValueError [])  (* the tuple always has ten values *)
  end.

(** The [for] loop over [enumerate(iter(lambda: f.read(20), sentinel))],
    whose sentinel is the empty bytes object: the iterator stops at the
    first empty read. *)
Fixpoint load_loop (fuel : nat) (i : nat) (glyphs : list Glyph)
  : IO (list Glyph) :=
  match fuel with
  | O => raise OutOfFuel
  | S fuel' =>
      let* raw_glyph := fp_read 20 in
      match raw_glyph with
      | [] => ret glyphs
      | _ =>
          if Nat.eqb (length raw_glyph) 0 then ret glyphs
          else
            let* glyph := lift (load_glyph i raw_glyph) in
            load_loop fuel' (S i) (glyphs ++ [glyph])
      end
  end.

(** Lines 72 to 91: what [load] does with the open metrics file. *)
Definition load_metrics : IO (Z * list Glyph) :=
  _check_header MAGIC >>
  let* field := fp_read 2 in
  let* ysize := lift (int_of_bytes field) in
  _check_header DATA >>
  let* fuel := (fun fp => (Ok (S (length (data fp) - pos fp)), fp)) in
  let* glyphs := load_loop fuel 0 [] in
  ret (ysize, glyphs).

(** ** The metrics half of [PILFont.save] *)

Fixpoint save_loop (glyphs : list Glyph) : IO unit :=
  match glyphs with
  | [] => ret tt
  | glyph :: glyphs' =>
      let* raw := lift (struct_pack_10h (Glyph_iter glyph)) in
      fp_write raw >>
      save_loop glyphs'
  end.

(** Lines 109 to 113: what [save] does with the open metrics file. *)
Definition save_metrics (ysize : Z) (glyphs : list Glyph) : IO unit :=
  fp_write MAGIC >>
  fp_write (str_encode ysize) >>
  fp_write DATA >>
  save_loop glyphs.

(** The codec on a stream held in memory: [decode] reads a file with the
    given content from its start, [encode] writes a fresh file and returns
    its outcome and its content. *)
Definition decode (stream : list byte) : result (Z * list Glyph) :=
  fst (load_metrics (open_rb stream)).

Definition encode (ysize : Z) (glyphs : list Glyph) : result unit * list byte :=
  let '(r, fp) := save_metrics ysize glyphs open_wb in (r, data fp).

(** ** [PILFont] *)

Record PILFont (Image : Type) : Type := mkPILFont {
  atlas : Image;
  ysize : Z;
  glyphs : list Glyph
}.
Arguments mkPILFont {Image} atlas ysize glyphs.
Arguments atlas {Image} self : rename.
Arguments ysize {Image} self : rename.
Arguments glyphs {Image} self : rename.

(** [l[index]] for a list and an [int]: a negative index counts from the
    end. *)
Definition list_getitem {A} (l : list A) (index : Z) : result A :=
  let n := Z.of_nat (length l) in
  let i := if index <? 0 then index + n else index in
  if (i <? 0) || (n <=? i) then Raise IndexError
  else match l !! Z.to_nat i with
       | Some x => Ok x
       | None => Raise IndexError
       end.

(** [PILFont.__getitem__] *)
Definition getitem {Image} (self : PILFont Image) (index : Z) : result Glyph :=
  list_getitem (glyphs self) index.

(** ** [load] and [save] on a file system

    The file system maps a path to the content of the file there.  The
    image library reads and writes the same file system. *)

Section Backend.
Context {Image Kwargs : Type}.

(** [Image.open(path)], [image.copy()] and [image.save(path, **kwargs)].
    A failed [Image_save] leaves the file system it returns. *)
Variable Image_open : string -> gmap string (list byte) -> result Image.
Variable Image_copy : Image -> result Image.
Variable Image_save :
  Image -> string -> Kwargs -> gmap string (list byte) ->
  result unit * gmap string (list byte).

Definition load (metrics_path image_path : string)
    (fs : gmap string (list byte)) : result (PILFont Image) :=
  match Image_open image_path fs with
  | Raise e => Raise e
  | Ok glyph_atlas =>
      match fs !! metrics_path with
      | None => Raise (FileNotFoundError metrics_path)
      | Some content =>
          match fst (load_metrics (open_rb content)) with
          | Raise e => Raise e
          | Ok (ysize, glyphs) =>
              match Image_copy glyph_atlas with
              | Raise e => Raise e
              | Ok copy => Ok (mkPILFont copy ysize glyphs)
              end
          end
      end
  end.

(** The [with open(metrics_path, "wb+")] block of [save]: the file is
    truncated, written, and closed with what was written. *)
Definition write_metrics (self : PILFont Image) (metrics_path : string)
    (fs : gmap string (list byte))
  : result unit * gmap string (list byte) :=
  let '(r, fp) := save_metrics (ysize self) (glyphs self) open_wb in
  (r, <[metrics_path := data fp]> fs).

Definition save (self : PILFont Image) (metrics_path : string)
    (image_path : option string) (image_kwargs : Kwargs)
    (fs : gmap string (list byte))
  : result unit * gmap string (list byte) :=
  match image_path with
  | Some path =>
      match Image_save (atlas self) path image_kwargs fs with
      | (Raise e, fs') => (Raise e, fs')
      | (Ok _, fs') => write_metrics self metrics_path fs'
      end
  | None => write_metrics self metrics_path fs
  end.
End Backend.

(** * Notions used to state the properties *)

(** What is left to read. *)
Definition remaining (fp : File) : list byte := drop (pos fp) (data fp).

Definition advance (n : nat) (fp : File) : File :=
  mkFile (data fp) (pos fp + length (take n (remaining fp))).

(** The glyphs of a list of chunks, numbered from [i]: the first failure
    ends the decoding, as in the loop. *)
Fixpoint decode_records (i : nat) (records : list (list byte))
  : result (list Glyph) :=
  match records with
  | [] => Ok []
  | raw :: records' =>
      match load_glyph i raw with
      | Raise e => Raise e
      | Ok g =>
          match decode_records (S i) records' with
          | Raise e => Raise e
          | Ok gs => Ok (g :: gs)
          end
      end
  end.

(** The [k]-th short of a record. *)
Definition short_at (raw : list byte) (k : nat) : Z :=
  match raw !! (2 * k)%nat, raw !! (2 * k + 1)%nat with
  | Some b0, Some b1 => unpack_h b0 b1
  | _, _ => 0
  end.

(** Big-endian two's complement on 16 bits, as the format defines it: the
    high byte of [v mod 65536], then its low byte. *)
Definition be16 (v : Z) : list byte :=
  [byte_of_Z (v mod 65536 / 256); byte_of_Z (v mod 65536 mod 256)].

(** The signed value of two bytes, high byte first. *)
Definition be16_value (b0 b1 : byte) : Z :=
  let x := Z_of_byte b0 * 256 + Z_of_byte b1 in
  if x <? 32768 then x else x - 65536.

(** The record of a glyph as the format lays it out: advance, destination
    box, source box. *)
Definition record_bytes (g : Glyph) : list byte :=
  be16 (delta g).1 ++ be16 (delta g).2 ++
  be16 (dst_bbox g).1.1.1 ++ be16 (dst_bbox g).1.1.2 ++
  be16 (dst_bbox g).1.2 ++ be16 (dst_bbox g).2 ++
  be16 (src_bbox g).1.1.1 ++ be16 (src_bbox g).1.1.2 ++
  be16 (src_bbox g).1.2 ++ be16 (src_bbox g).2.

(** Every field of the glyph fits a signed short. *)
Definition Glyph_int16 (g : Glyph) : Prop := Forall in_int16 (Glyph_iter g).

(** The table a decoder numbers by position: glyph [i] gets the byte [i]. *)
Definition renumber (i : nat) (gs : list Glyph) : list Glyph :=
  imap (fun k g =>
          mkGlyph [byte_of_Z (Z.of_nat (i + k))]
            (delta g) (src_bbox g) (dst_bbox g)) gs.

Definition two_digit_ok (y : Z) : bool :=
  Nat.eqb (length (str_encode y)) 2 &&
  match int_of_bytes (str_encode y) with
  | Ok v => v =? y
  | Raise _ => false
  end.

(** The glyphs of a table carry their position as character. *)
Definition positional (gs : list Glyph) : Prop :=
  forall i g, gs !! i = Some g -> character g = [byte_of_Z (Z.of_nat i)].

(** The table and the streams of the worked example. *)
Definition glyph_a (c : list byte) : Glyph :=
  mkGlyph c (6, 0) (0, 0, 6, 16) (0, -16, 6, 0).
Definition glyph_b (c : list byte) : Glyph :=
  mkGlyph c (6, 0) (6, 0, 12, 16) (0, -16, 6, 0).

Definition example_records : list byte :=
  [x00; x06; x00; x00;  x00; x00; xff; xf0; x00; x06; x00; x00;
   x00; x00; x00; x00; x00; x06; x00; x10;
   x00; x06; x00; x00;  x00; x00; xff; xf0; x00; x06; x00; x00;
   x00; x06; x00; x00; x00; x0c; x00; x10].

Definition example_stream : list byte :=
  MAGIC ++ bytes_of_string "20" ++ DATA ++ example_records.


(** The integers [str] converts: the interpreter refuses a number of more
    than 4300 digits with [ValueError], and [str_encode] is the text of
    the others. *)
Definition str_converts (y : Z) : Prop := Z.abs y < 10 ^ 4300.

(** Every byte, for checks that run over all of them. *)
Definition all_bytes : list byte :=
  omap (fun n => Byte.of_N (N.of_nat n)) (seq 0 256).

Definition forall_byte (p : byte -> bool) : bool := forallb p all_bytes.

(** What [int] makes of a two-byte size field: a value from -9 to 99, and
    outside 0 to 9 the field is the decimal text of the value. *)
Definition field_ok (a b : byte) : bool :=
  match int_of_bytes [a; b] with
  | Ok y =>
      (-9 <=? y) && (y <=? 99) &&
      (if (0 <=? y) && (y <=? 9) then true
       else bool_decide (str_encode y = [a; b]))
  | Raise _ => true
  end.

(** A one-byte text followed by the first byte of the data segment is no
    integer literal. *)
Definition one_byte_field_fails (c : byte) : bool :=
  match int_of_bytes [c; x3b] with
  | Ok _ => false
  | Raise _ => true
  end.

(** A result that is a value. *)
Definition is_Ok {A} (r : result A) : Prop :=
  match r with Ok _ => True | Raise _ => False end.

(** An image library that opens and copies the unit image and never
    writes. *)
Definition unit_open (path : string) (fs : gmap string (list byte))
  : result unit := Ok tt.
Definition unit_copy (image : unit) : result unit := Ok tt.
Definition unit_save (image : unit) (path : string) (kwargs : unit)
    (fs : gmap string (list byte)) : result unit * gmap string (list byte) :=
  (Ok tt, fs).

(** The glyphs agree in their ten numbers. *)
Definition same_fields (g g' : Glyph) : Prop :=
  delta g = delta g' /\ dst_bbox g = dst_bbox g' /\ src_bbox g = src_bbox g'.

(** Lengths of the header segments. *)
Ltac solve_len :=
  change (length MAGIC) with 14%nat;
  change (length DATA) with 7%nat;
  cbn [length]; lia.

(** * Properties *)

(** ** Bytes and shorts *)

Lemma Z_of_byte_range (b : byte) : 0 <= Z_of_byte b < 256.
Proof.
  unfold Z_of_byte. pose proof (Byte.to_N_bounded b). lia.
Qed.

Lemma byte_of_Z_of_byte (b : byte) : byte_of_Z (Z_of_byte b) = b.
Proof.
  unfold byte_of_Z. rewrite Z.mod_small by apply Z_of_byte_range.
  unfold Z_of_byte. rewrite N2Z.id, Byte.of_to_N. reflexivity.
Qed.

Lemma Z_of_byte_of_Z (z : Z) : Z_of_byte (byte_of_Z z) = z mod 256.
Proof.
  unfold byte_of_Z, Z_of_byte.
  assert (Hr : 0 <= z mod 256 < 256) by (apply Z.mod_pos_bound; lia).
  destruct (Byte.of_N (Z.to_N (z mod 256))) as [b|] eqn:E.
  - apply Byte.to_of_N in E. rewrite E. lia.
  - apply Byte.of_N_None_iff in E. lia.
Qed.

(** The two bytes of a short read as one unsigned number. *)
Lemma lor_shiftl_bytes (a b : Z) :
  0 <= a -> 0 <= b < 256 -> Z.lor (Z.shiftl a 8) b = a * 256 + b.
Proof.
  intros Ha Hb. rewrite <- Z.add_nocarry_lor.
  - rewrite Z.shiftl_mul_pow2 by lia. reflexivity.
  - apply Z.bits_inj'. intros n Hn. rewrite Z.land_spec, Z.bits_0.
    destruct (Z.lt_ge_cases n 8) as [Hlt|Hge].
    + rewrite (Z.shiftl_spec_low a 8 n Hlt). reflexivity.
    + destruct (Z.eq_dec b 0) as [->|Hb0].
      * rewrite Z.bits_0. apply andb_false_r.
      * rewrite (Z.bits_above_log2 b n), andb_false_r; [reflexivity|lia|].
        apply Z.log2_lt_pow2; [lia|].
        assert (Hp : 2 ^ 8 <= 2 ^ n) by (apply Z.pow_le_mono_r; lia).
        change (2 ^ 8) with 256 in Hp. lia.
Qed.

Lemma testbit_15 (x : Z) :
  0 <= x < 65536 -> Z.testbit x 15 = (32768 <=? x).
Proof.
  intros Hx. rewrite Z.testbit_odd, Z.shiftr_div_pow2 by lia.
  change (2 ^ 15) with 32768.
  destruct (Z.leb_spec 32768 x).
  - replace (x / 32768) with 1; [reflexivity|].
    apply Z.div_unique with (r := x - 32768); lia.
  - rewrite Z.div_small by lia. reflexivity.
Qed.

Lemma unpack_h_value (b0 b1 : byte) :
  unpack_h b0 b1 =
    let x := Z_of_byte b0 * 256 + Z_of_byte b1 in
    if 32768 <=? x then x - 65536 else x.
Proof.
  pose proof (Z_of_byte_range b0). pose proof (Z_of_byte_range b1).
  unfold unpack_h. rewrite lor_shiftl_bytes by lia. cbv zeta.
  rewrite testbit_15 by lia. reflexivity.
Qed.

Lemma unpack_h_int16 (b0 b1 : byte) : in_int16 (unpack_h b0 b1).
Proof.
  pose proof (Z_of_byte_range b0). pose proof (Z_of_byte_range b1).
  rewrite unpack_h_value. cbv zeta. unfold in_int16.
  destruct (Z.leb_spec 32768 (Z_of_byte b0 * 256 + Z_of_byte b1)); lia.
Qed.

Lemma in_int16b_true (v : Z) : in_int16 v -> in_int16b v = true.
Proof. unfold in_int16, in_int16b. lia. Qed.

Lemma in_int16b_false (v : Z) : ~ in_int16 v -> in_int16b v = false.
Proof. unfold in_int16, in_int16b. lia. Qed.


Lemma mod_65536_split (v : Z) :
  v mod 65536 / 256 = (v / 256) mod 256 /\ v mod 65536 mod 256 = v mod 256.
Proof.
  change 65536 with (256 * 256). rewrite Z.rem_mul_r by lia.
  assert (H0 : 0 <= v mod 256 < 256) by (apply Z.mod_pos_bound; lia).
  assert (H1 : 0 <= (v / 256) mod 256 < 256) by (apply Z.mod_pos_bound; lia).
  split.
  - symmetry. apply Z.div_unique with (r := v mod 256); lia.
  - symmetry. apply Z.mod_unique with (q := (v / 256) mod 256); lia.
Qed.

Lemma pack_h_bytes (v : Z) :
  in_int16 v ->
  pack_h v = Ok [byte_of_Z (v mod 65536 / 256); byte_of_Z (v mod 65536 mod 256)].
Proof.
  intros Hv. unfold pack_h. rewrite in_int16b_true by assumption.
  change 255 with (Z.ones 8). rewrite !Z.land_ones by lia.
  rewrite Z.shiftr_div_pow2 by lia. change (2 ^ 8) with 256.
  destruct (mod_65536_split v) as [-> ->]. reflexivity.
Qed.

Lemma mod_65536_int16 (v : Z) :
  in_int16 v ->
  v mod 65536 = if v <? 0 then v + 65536 else v.
Proof.
  unfold in_int16. intros Hv. destruct (Z.ltb_spec v 0).
  - symmetry. apply Z.mod_unique with (q := -1); lia.
  - apply Z.mod_small. lia.
Qed.

Lemma unpack_pack_h (v : Z) :
  in_int16 v ->
  exists b0 b1, pack_h v = Ok [b0; b1] /\ unpack_h b0 b1 = v.
Proof.
  intros Hv. eexists _, _. split; [apply pack_h_bytes, Hv|].
  rewrite unpack_h_value, !Z_of_byte_of_Z. cbv zeta.
  assert (Hm : 0 <= v mod 65536 < 65536) by (apply Z.mod_pos_bound; lia).
  rewrite (Z.mod_small (_ / 256)) by
    (split; [apply Z.div_pos; lia | apply Z.div_lt_upper_bound; lia]).
  rewrite Z.mod_mod by lia.
  rewrite Z.mul_comm, <- Z.div_mod by lia.
  rewrite mod_65536_int16 by assumption. unfold in_int16 in Hv.
  destruct (Z.ltb_spec v 0);
    match goal with |- context [32768 <=? ?x] => destruct (Z.leb_spec 32768 x) end;
    lia.
Qed.

(** ** Reading a file *)

Lemma fp_read_eq (n : nat) (fp : File) :
  fp_read n fp = (Ok (take n (remaining fp)), advance n fp).
Proof. reflexivity. Qed.

Lemma remaining_advance (n : nat) (fp : File) :
  remaining (advance n fp) = drop n (remaining fp).
Proof.
  unfold advance, remaining. cbn [data pos].
  rewrite length_take, length_drop, drop_drop.
  destruct (Nat.le_gt_cases n (length (data fp) - pos fp)).
  - rewrite Nat.min_l by assumption. reflexivity.
  - rewrite Nat.min_r by lia. rewrite !drop_ge; [reflexivity|lia|lia].
Qed.

Lemma _check_header_eq (expected : list byte) (fp : File) :
  _check_header expected fp =
    let actual := take (length expected) (remaining fp) in
    (if decide (actual = expected) then Ok tt
     else Raise (PILFontParsingError (pos fp) expected actual),
     advance (length expected) fp).
Proof.
  unfold _check_header, bind, fp_tell. rewrite fp_read_eq. cbv zeta.
  destruct (decide (take (length expected) (remaining fp) = expected));
    reflexivity.
Qed.

(** ** The record loop *)

Lemma load_glyph_short (i : nat) (raw : list byte) :
  length raw <> 20%nat -> load_glyph i raw = Raise StructError.
Proof.
  intros H. unfold load_glyph, struct_unpack_10h.
  destruct (Nat.eqb_spec (length raw) 20); [contradiction|reflexivity].
Qed.

(** The loop on a file whose unread part is complete records and then a
    tail shorter than a record. *)
Lemma load_loop_records (records : list (list byte)) (tail : list byte) :
  Forall (fun raw => length raw = 20%nat) records ->
  (length tail < 20)%nat ->
  forall fuel i acc fp,
    remaining fp = concat records ++ tail ->
    (length (remaining fp) < fuel)%nat ->
    fst (load_loop fuel i acc fp) =
      match decode_records i records with
      | Raise e => Raise e
      | Ok gs =>
          match tail with
          | [] => Ok (acc ++ gs)
          | _ => Raise StructError
          end
      end.
Proof.
  intros Hrec Htail. induction Hrec as [|raw records Hraw Hrec IH];
    intros fuel i acc fp Hrem Hfuel.
  - cbn [concat app] in Hrem. destruct fuel as [|fuel]; [lia|].
    cbn [load_loop decode_records]. unfold bind. rewrite fp_read_eq, Hrem.
    rewrite take_ge by lia.
    destruct tail as [|b tail]; [cbn; rewrite app_nil_r; reflexivity|].
    cbn [length Nat.eqb]. unfold lift.
    rewrite load_glyph_short by (cbn [length] in *; lia). reflexivity.
  - cbn [concat] in Hrem. rewrite <- app_assoc in Hrem.
    destruct fuel as [|fuel]; [lia|].
    cbn [load_loop decode_records]. unfold bind. rewrite fp_read_eq, Hrem.
    rewrite take_app_length' by (symmetry; assumption).
    destruct raw as [|b raw]; [discriminate Hraw|].
    cbn [length Nat.eqb]. unfold lift.
    destruct (load_glyph i (b :: raw)) as [g|e]; [|reflexivity].
    rewrite (IH fuel (S i) (acc ++ [g]) (advance 20 fp)).
    + destruct (decode_records (S i) records) as [gs|e]; [|reflexivity].
      destruct tail; [rewrite <- app_assoc|]; reflexivity.
    + rewrite remaining_advance, Hrem, drop_app_length' by (symmetry; assumption).
      reflexivity.
    + rewrite remaining_advance, Hrem, drop_app_length' by (symmetry; assumption).
      rewrite Hrem, length_app, Hraw in Hfuel. lia.
Qed.

(** ** One record *)

Lemma byte_of_Z_mod (z : Z) : byte_of_Z (z mod 256) = byte_of_Z z.
Proof. unfold byte_of_Z. rewrite Z.mod_mod by lia. reflexivity. Qed.

Lemma to_bytes_little_1 (i : nat) :
  to_bytes_little (Z.of_nat i) 1 =
    if decide (i < 256)%nat then Ok [byte_of_Z (Z.of_nat i)]
    else Raise OverflowError.
Proof.
  unfold to_bytes_little. change (256 ^ Z.of_nat 1) with 256.
  destruct (Z.ltb_spec (Z.of_nat i) 0); [lia|].
  destruct (decide (i < 256)%nat), (Z.leb_spec 256 (Z.of_nat i)); try lia.
  - cbn [le_bytes]. rewrite byte_of_Z_mod. reflexivity.
  - reflexivity.
Qed.

Lemma load_glyph_full (i : nat) (raw : list byte) :
  length raw = 20%nat ->
  load_glyph i raw =
    if decide (i < 256)%nat then
      Ok (mkGlyph [byte_of_Z (Z.of_nat i)]
            (short_at raw 0, short_at raw 1)
            (short_at raw 6, short_at raw 7, short_at raw 8, short_at raw 9)
            (short_at raw 2, short_at raw 3, short_at raw 4, short_at raw 5))
    else Raise OverflowError.
Proof.
  intros Hlen.
  do 20 (destruct raw as [|? raw]; [discriminate Hlen|]).
  destruct raw; [|discriminate Hlen].
  unfold load_glyph, struct_unpack_10h. cbn [length Nat.eqb unpack_hs].
  rewrite to_bytes_little_1. destruct (decide (i < 256)%nat); reflexivity.
Qed.

Lemma load_glyph_Ok_lt (i : nat) (raw : list byte) (g : Glyph) :
  load_glyph i raw = Ok g -> (i < 256)%nat /\ length raw = 20%nat.
Proof.
  intros H. destruct (decide (length raw = 20%nat)) as [Hlen|Hlen].
  - rewrite load_glyph_full in H by assumption.
    destruct (decide (i < 256)%nat); [auto|discriminate H].
  - rewrite load_glyph_short in H by assumption. discriminate H.
Qed.

(** ** A run of records *)

Lemma decode_records_Ok (records : list (list byte)) :
  Forall (fun raw => length raw = 20%nat) records ->
  forall i, (i + length records <= 256)%nat ->
  exists gs,
    decode_records i records = Ok gs /\
    length gs = length records /\
    forall k g, gs !! k = Some g ->
      exists raw, records !! k = Some raw /\ load_glyph (i + k) raw = Ok g.
Proof.
  induction 1 as [|raw records Hraw Hrec IH]; intros i Hi.
  - exists []. split; [reflexivity|]. split; [reflexivity|].
    intros k g Hk. discriminate Hk.
  - cbn [length] in Hi. destruct (IH (S i)) as (gs & Hgs & Hlen & Hall); [lia|].
    cbn [decode_records]. rewrite Hgs.
    pose proof (load_glyph_full i raw Hraw) as Hg.
    destruct (decide (i < 256)%nat); [|lia].
    rewrite Hg. eexists. split; [reflexivity|]. split; [cbn; lia|].
    intros [|k] g Hk.
    + injection Hk as <-. exists raw. rewrite Nat.add_0_r. auto.
    + destruct (Hall k g Hk) as (raw' & Hr & Hl).
      exists raw'. rewrite Nat.add_succ_r. auto.
Qed.

Lemma decode_records_overflow (records : list (list byte)) :
  Forall (fun raw => length raw = 20%nat) records ->
  forall i, (i <= 256 < i + length records)%nat ->
  decode_records i records = Raise OverflowError.
Proof.
  induction 1 as [|raw records Hraw Hrec IH]; intros i Hi.
  - cbn [length] in Hi. lia.
  - cbn [length] in Hi. cbn [decode_records].
    rewrite (load_glyph_full i raw Hraw).
    destruct (decide (i < 256)%nat); [|reflexivity].
    rewrite (IH (S i)) by lia. reflexivity.
Qed.

Lemma load_glyph_exn (i : nat) (raw : list byte) (e : exn) :
  load_glyph i raw = Raise e -> e = StructError \/ e = OverflowError.
Proof.
  destruct (decide (length raw = 20%nat)) as [Hlen|Hlen].
  - rewrite load_glyph_full by assumption.
    destruct (decide (i < 256)%nat); [discriminate|]. intros [= <-]. auto.
  - rewrite load_glyph_short by assumption. intros [= <-]. auto.
Qed.

(** The fuel [load_metrics] gives the loop is enough: every full iteration
    reads at least one byte. *)
Lemma load_loop_fuel (fuel : nat) :
  forall i acc fp,
    (length (remaining fp) < fuel)%nat ->
    fst (load_loop fuel i acc fp) <> Raise OutOfFuel.
Proof.
  induction fuel as [|fuel IH]; intros i acc fp Hfuel; [lia|].
  cbn [load_loop]. unfold bind. rewrite fp_read_eq.
  destruct (take 20 (remaining fp)) as [|b raw] eqn:Hraw; [discriminate|].
  cbn [length Nat.eqb]. unfold lift.
  destruct (load_glyph i (b :: raw)) as [g|e] eqn:Hg.
  - apply IH. rewrite remaining_advance, length_drop.
    apply (f_equal length) in Hraw. rewrite length_take in Hraw.
    cbn [length] in Hraw. lia.
  - apply load_glyph_exn in Hg as [-> | ->]; discriminate.
Qed.

(** No run of the loop returns more than 256 glyphs. *)
Lemma load_loop_at_most_256 (fuel : nat) :
  forall i acc fp gs,
    fst (load_loop fuel i acc fp) = Ok gs ->
    length acc = i -> (i <= 256)%nat ->
    (length gs <= 256)%nat.
Proof.
  induction fuel as [|fuel IH]; intros i acc fp gs H Hacc Hi.
  - discriminate H.
  - cbn [load_loop] in H. unfold bind in H. rewrite fp_read_eq in H.
    destruct (take 20 (remaining fp)) as [|b raw] eqn:Hraw.
    + injection H as <-. lia.
    + cbn [length Nat.eqb] in H. unfold lift in H.
      destruct (load_glyph i (b :: raw)) as [g|e] eqn:Hg; [|discriminate H].
      apply load_glyph_Ok_lt in Hg as [Hlt _].
      apply IH in H; [assumption| |lia].
      rewrite length_app. cbn [length]. lia.
Qed.

(** ** The header *)

Lemma load_metrics_eq (fp : File) :
  fst (load_metrics fp) =
    let a1 := take 14 (remaining fp) in
    if decide (a1 = MAGIC) then
      let fp1 := advance 14 fp in
      let fp2 := advance 2 fp1 in
      match int_of_bytes (take 2 (remaining fp1)) with
      | Raise e => Raise e
      | Ok y =>
          let a2 := take 7 (remaining fp2) in
          if decide (a2 = DATA) then
            let fp3 := advance 7 fp2 in
            match fst (load_loop (S (length (data fp3) - pos fp3)) 0 [] fp3) with
            | Raise e => Raise e
            | Ok gs => Ok (y, gs)
            end
          else Raise (PILFontParsingError (pos fp2) DATA a2)
      end
    else Raise (PILFontParsingError (pos fp) MAGIC a1).
Proof.
  unfold load_metrics, bind. rewrite _check_header_eq.
  change (length MAGIC) with 14%nat. cbv zeta.
  destruct (decide (take 14 (remaining fp) = MAGIC)); [|reflexivity].
  rewrite fp_read_eq. unfold lift.
  destruct (int_of_bytes _) as [y|ex]; [|reflexivity].
  rewrite _check_header_eq. change (length DATA) with 7%nat. cbv zeta.
  destruct (decide (take 7 _ = DATA)); [|reflexivity].
  destruct (load_loop _ _ _ _) as [[gs|ex] fp']; reflexivity.
Qed.

Lemma remaining_fuel (fp : File) :
  (length (remaining fp) < S (length (data fp) - pos fp))%nat.
Proof. unfold remaining. rewrite length_drop. lia. Qed.

Lemma remaining_open_rb (s : list byte) : remaining (open_rb s) = s.
Proof. reflexivity. Qed.

(** A stream whose magic segment is wrong. *)
Lemma decode_bad_magic (s : list byte) :
  take 14 s <> MAGIC ->
  decode s = Raise (PILFontParsingError 0 MAGIC (take 14 s)).
Proof.
  intros H. unfold decode. rewrite load_metrics_eq, remaining_open_rb.
  cbv zeta. destruct (decide (take 14 s = MAGIC)); [contradiction|reflexivity].
Qed.

(** A stream with the magic segment, a two-byte field and seven more bytes. *)
Lemma decode_header (ys dat rest : list byte) :
  length ys = 2%nat -> length dat = 7%nat ->
  decode (MAGIC ++ ys ++ dat ++ rest) =
    match int_of_bytes ys with
    | Raise e => Raise e
    | Ok y =>
        if decide (dat = DATA) then
          match fst (load_loop (S (length rest)) 0 []
                       (mkFile (MAGIC ++ ys ++ dat ++ rest) 23)) with
          | Raise e => Raise e
          | Ok gs => Ok (y, gs)
          end
        else Raise (PILFontParsingError 16 DATA dat)
    end.
Proof.
  intros Hys Hdat. unfold decode. rewrite load_metrics_eq. cbv zeta.
  set (s := MAGIC ++ ys ++ dat ++ rest).
  assert (H1 : advance 14 (open_rb s) = mkFile s 14).
  { unfold advance. rewrite remaining_open_rb. subst s.
    rewrite take_app_length' by reflexivity. reflexivity. }
  assert (R1 : remaining (mkFile s 14) = ys ++ dat ++ rest).
  { subst s. unfold remaining. cbn [data pos].
    rewrite drop_app_length' by reflexivity. reflexivity. }
  assert (H2 : advance 2 (mkFile s 14) = mkFile s 16).
  { unfold advance. rewrite R1.
    rewrite take_app_length' by (symmetry; assumption).
    rewrite Hys. reflexivity. }
  assert (R2 : remaining (mkFile s 16) = dat ++ rest).
  { rewrite <- H2, remaining_advance, R1.
    rewrite drop_app_length' by (symmetry; assumption). reflexivity. }
  assert (H3 : advance 7 (mkFile s 16) = mkFile s 23).
  { unfold advance. rewrite R2.
    rewrite take_app_length' by (symmetry; assumption).
    rewrite Hdat. reflexivity. }
  rewrite remaining_open_rb.
  replace (take 14 s) with MAGIC
    by (subst s; rewrite take_app_length' by reflexivity; reflexivity).
  destruct (decide (MAGIC = MAGIC)); [|contradiction].
  rewrite H1, R1, H2, R2, H3.
  rewrite !take_app_length' by (symmetry; assumption).
  destruct (int_of_bytes ys) as [y|ex]; [|reflexivity].
  destruct (decide (dat = DATA)); [|reflexivity].
  cbn [data pos]. replace (length s - 23)%nat with (length rest); [reflexivity|].
  subst s. rewrite !length_app, Hys, Hdat. change (length MAGIC) with 14%nat. lia.
Qed.

(** A stream with a well-formed header, complete records and a tail. *)
Lemma decode_stream (ys : list byte) (records : list (list byte))
    (tail : list byte) :
  length ys = 2%nat ->
  Forall (fun raw => length raw = 20%nat) records ->
  (length tail < 20)%nat ->
  decode (MAGIC ++ ys ++ DATA ++ concat records ++ tail) =
    match int_of_bytes ys with
    | Raise e => Raise e
    | Ok y =>
        match decode_records 0 records with
        | Raise e => Raise e
        | Ok gs =>
            match tail with
            | [] => Ok (y, gs)
            | _ => Raise StructError
            end
        end
    end.
Proof.
  intros Hys Hrec Htail. rewrite decode_header by (assumption || reflexivity).
  destruct (int_of_bytes ys) as [y|ex]; [|reflexivity].
  destruct (decide (DATA = DATA)); [|contradiction].
  rewrite (load_loop_records records tail Hrec Htail).
  - destruct (decode_records 0 records) as [gs|ex]; [|reflexivity].
    destruct tail; reflexivity.
  - destruct ys as [|a [|b [|]]]; try discriminate Hys. reflexivity.
  - unfold remaining. cbn [data pos]. rewrite length_drop, !length_app.
    rewrite Hys. change (length MAGIC) with 14%nat.
    change (length DATA) with 7%nat. lia.
Qed.

Lemma int_of_bytes_exn (b : list byte) (e : exn) :
  int_of_bytes b = Raise e -> e = ValueError b.
Proof.
  unfold int_of_bytes.
  repeat match goal with
         | |- context [match ?x with _ => _ end] => destruct x
         end; congruence.
Qed.

(** [decode] never runs out of fuel: it returns or raises as [load] does. *)
Lemma decode_fuel (s : list byte) : decode s <> Raise OutOfFuel.
Proof.
  unfold decode. rewrite load_metrics_eq. cbv zeta.
  destruct (decide (_ = MAGIC)); [|discriminate].
  destruct (int_of_bytes _) as [y|ex] eqn:Hy;
    [|apply int_of_bytes_exn in Hy; rewrite Hy; discriminate].
  destruct (decide (_ = DATA)); [|discriminate].
  match goal with
  | |- context [load_loop ?f ?i ?a ?fp] =>
      pose proof (load_loop_fuel f i a fp (remaining_fuel fp)) as H
  end.
  destruct (fst (load_loop _ _ _ _)) as [gs|ex]; [discriminate|].
  intros [= ->]. apply H. reflexivity.
Qed.

(** What a stream that decodes looks like. *)
Lemma decode_Ok_inv (s : list byte) (y : Z) (gs : list Glyph) :
  decode s = Ok (y, gs) ->
  exists ys rest,
    s = MAGIC ++ ys ++ DATA ++ rest /\ length ys = 2%nat /\
    int_of_bytes ys = Ok y /\ (length gs <= 256)%nat.
Proof.
  unfold decode. rewrite load_metrics_eq, remaining_open_rb. cbv zeta.
  destruct (decide (take 14 s = MAGIC)) as [Hm|]; [|discriminate].
  rewrite !remaining_advance, remaining_open_rb.
  destruct (int_of_bytes (take 2 (drop 14 s))) as [y'|] eqn:Hy; [|discriminate].
  destruct (decide (take 7 (drop 2 (drop 14 s)) = DATA)) as [Hd|]; [|discriminate].
  destruct (fst (load_loop _ _ _ _)) as [gs'|] eqn:Hl; [|discriminate].
  intros [= -> ->].
  exists (take 2 (drop 14 s)), (drop 7 (drop 2 (drop 14 s))).
  split; [|split; [|split]].
  - rewrite <- Hd at 1. rewrite take_drop, take_drop.
    rewrite <- Hm at 1. rewrite take_drop. reflexivity.
  - apply (f_equal length) in Hd. rewrite length_take, length_drop in Hd.
    change (length DATA) with 7%nat in Hd.
    rewrite length_take. lia.
  - assumption.
  - eapply load_loop_at_most_256; [exact Hl|reflexivity|lia].
Qed.

(** ** Writing a file *)

Lemma pack_h_be16 (v : Z) : in_int16 v -> pack_h v = Ok (be16 v).
Proof. apply pack_h_bytes. Qed.

Lemma unpack_h_be16_value (b0 b1 : byte) : unpack_h b0 b1 = be16_value b0 b1.
Proof.
  rewrite unpack_h_value. unfold be16_value. cbv zeta.
  destruct (Z.leb_spec 32768 (Z_of_byte b0 * 256 + Z_of_byte b1)),
    (Z.ltb_spec (Z_of_byte b0 * 256 + Z_of_byte b1) 32768);
    (reflexivity || lia).
Qed.

Lemma unpack_be16 (v : Z) :
  in_int16 v ->
  unpack_h (byte_of_Z (v mod 65536 / 256)) (byte_of_Z (v mod 65536 mod 256)) = v.
Proof.
  intros Hv. destruct (unpack_pack_h v Hv) as (b0 & b1 & Hp & Hu).
  rewrite pack_h_bytes in Hp by assumption. injection Hp as <- <-. exact Hu.
Qed.

Lemma struct_pack_record (g : Glyph) :
  Glyph_int16 g -> struct_pack_10h (Glyph_iter g) = Ok (record_bytes g).
Proof.
  destruct g as [c [dx dy] [[[sx0 sy0] sx1] sy1] [[[dx0 dy0] dx1] dy1]].
  unfold Glyph_int16, Glyph_iter, struct_pack_10h, record_bytes.
  cbn [delta dst_bbox src_bbox fst snd length Nat.eqb pack_hs].
  intros H. repeat (apply Forall_cons in H as [? H]).
  rewrite !pack_h_be16 by assumption. reflexivity.
Qed.

Lemma length_record_bytes (g : Glyph) : length (record_bytes g) = 20%nat.
Proof. reflexivity. Qed.

Lemma load_glyph_record (i : nat) (g : Glyph) :
  Glyph_int16 g -> (i < 256)%nat ->
  load_glyph i (record_bytes g) =
    Ok (mkGlyph [byte_of_Z (Z.of_nat i)] (delta g) (src_bbox g) (dst_bbox g)).
Proof.
  intros H Hi. rewrite load_glyph_full by reflexivity.
  destruct (decide (i < 256)%nat); [|contradiction].
  destruct g as [c [dx dy] [[[sx0 sy0] sx1] sy1] [[[dx0 dy0] dx1] dy1]].
  unfold Glyph_int16, Glyph_iter in H.
  cbn [delta dst_bbox src_bbox] in *.
  repeat (apply Forall_cons in H as [? H]).
  unfold short_at, record_bytes, be16.
  cbn [delta dst_bbox src_bbox fst snd app lookup list_lookup Nat.mul Nat.add].
  rewrite !unpack_be16 by assumption. reflexivity.
Qed.

Lemma decode_records_renumber (gs : list Glyph) :
  Forall Glyph_int16 gs ->
  forall i, (i + length gs <= 256)%nat ->
  decode_records i (map record_bytes gs) = Ok (renumber i gs).
Proof.
  induction 1 as [|g gs Hg Hgs IH]; intros i Hi; [reflexivity|].
  cbn [length] in Hi. cbn [map decode_records].
  rewrite load_glyph_record by (assumption || lia).
  rewrite IH by lia. unfold renumber. cbn [imap]. rewrite Nat.add_0_r.
  do 2 f_equal. apply imap_ext. intros k g' _. cbn.
  rewrite Nat.add_succ_r. reflexivity.
Qed.

Lemma fp_write_end (b : list byte) (fp : File) :
  pos fp = length (data fp) ->
  fp_write b fp = (Ok tt, mkFile (data fp ++ b) (length (data fp ++ b))).
Proof.
  intros H. unfold fp_write. rewrite H, Nat.sub_diag, take_ge by lia.
  rewrite drop_ge by lia. cbn [replicate]. rewrite !app_nil_r, length_app.
  reflexivity.
Qed.

Lemma save_loop_records (gs : list Glyph) :
  Forall Glyph_int16 gs ->
  forall fp, pos fp = length (data fp) ->
  save_loop gs fp =
    (Ok tt, mkFile (data fp ++ concat (map record_bytes gs))
              (length (data fp ++ concat (map record_bytes gs)))).
Proof.
  induction 1 as [|g gs Hg Hgs IH]; intros fp Hfp.
  - cbn. rewrite app_nil_r, <- Hfp. destruct fp; reflexivity.
  - cbn [save_loop map concat]. unfold bind, lift.
    rewrite struct_pack_record by assumption.
    rewrite fp_write_end by assumption.
    rewrite IH by reflexivity. cbn [data]. rewrite <- !app_assoc. reflexivity.
Qed.

Lemma encode_records (y : Z) (gs : list Glyph) :
  Forall Glyph_int16 gs ->
  encode y gs =
    (Ok tt, MAGIC ++ str_encode y ++ DATA ++ concat (map record_bytes gs)).
Proof.
  intros H. unfold encode, save_metrics, bind.
  rewrite fp_write_end by reflexivity.
  rewrite fp_write_end by reflexivity.
  rewrite fp_write_end by reflexivity.
  rewrite save_loop_records by (assumption || reflexivity).
  cbn [data open_wb app]. rewrite <- !app_assoc. reflexivity.
Qed.

(** ** The size field *)

Lemma two_digit_all : forallb two_digit_ok (seqZ 10 90) = true.
Proof. vm_compute. reflexivity. Qed.

Lemma int_of_str_two_digit (y : Z) :
  10 <= y <= 99 ->
  length (str_encode y) = 2%nat /\ int_of_bytes (str_encode y) = Ok y.
Proof.
  intros Hy. pose proof two_digit_all as H.
  rewrite forallb_forall in H. specialize (H y).
  unfold two_digit_ok in H.
  rewrite andb_true_iff in H. destruct H as [H1 H2].
  - apply list_elem_of_In, elem_of_seqZ. lia.
  - split; [apply Nat.eqb_eq, H1|].
    destruct (int_of_bytes (str_encode y)); [|discriminate H2].
    f_equal. apply Z.eqb_eq, H2.
Qed.

(** * The claims *)

Lemma renumber_lookup (gs : list Glyph) (i : nat) (g : Glyph) :
  gs !! i = Some g ->
  renumber 0 gs !! i =
    Some (mkGlyph [byte_of_Z (Z.of_nat i)] (delta g) (src_bbox g) (dst_bbox g)).
Proof.
  intros H. unfold renumber. rewrite list_lookup_imap, H. reflexivity.
Qed.

Lemma renumber_positional (gs : list Glyph) :
  positional gs -> renumber 0 gs = gs.
Proof.
  intros H. apply list_eq. intros i. unfold renumber.
  rewrite list_lookup_imap. destruct (gs !! i) as [g|] eqn:E; [|reflexivity].
  cbn. rewrite <- (H i g E). destruct g; reflexivity.
Qed.

(** C1, as the code has it: a table of at most 256 glyphs whose fields fit
    a signed short, saved with a two-digit [ysize] (10 to 99), loads again
    with the same [ysize] and the same ten numbers for every glyph; the
    character of the glyph at position [i] is the byte [i], so a table that
    is numbered by position comes back equal. *)
Theorem roundtrip_two_digit_ysize (y : Z) (gs : list Glyph) :
  10 <= y <= 99 ->
  Forall Glyph_int16 gs ->
  (length gs <= 256)%nat ->
  exists stream gs',
    encode y gs = (Ok tt, stream) /\
    stream = MAGIC ++ str_encode y ++ DATA ++ concat (map record_bytes gs) /\
    decode stream = Ok (y, gs') /\
    length gs' = length gs /\
    (forall i g, gs !! i = Some g ->
       exists g', gs' !! i = Some g' /\
         delta g' = delta g /\ dst_bbox g' = dst_bbox g /\
         src_bbox g' = src_bbox g /\
         character g' = [byte_of_Z (Z.of_nat i)]) /\
    (positional gs -> gs' = gs).
Proof.
  intros Hy Hgs Hlen.
  destruct (int_of_str_two_digit y Hy) as [Hl Hi].
  exists (MAGIC ++ str_encode y ++ DATA ++ concat (map record_bytes gs)),
    (renumber 0 gs).
  split; [apply encode_records, Hgs|]. split; [reflexivity|].
  split; [|split; [|split]].
  - rewrite <- (app_nil_r (concat _)).
    rewrite decode_stream; [| assumption | | cbn; lia].
    + rewrite Hi, decode_records_renumber by (assumption || lia). reflexivity.
    + apply Forall_map. apply Forall_true. intros g. reflexivity.
  - unfold renumber. apply length_imap.
  - intros i g Hg. eexists. split; [apply renumber_lookup, Hg|].
    cbn. auto.
  - apply renumber_positional.
Qed.

Lemma roundtrip_two_digit_ysize_witness :
  10 <= 20 <= 99 /\
  Forall Glyph_int16 [glyph_a [x00]; glyph_b [x01]] /\
  (length [glyph_a [x00]; glyph_b [x01]] <= 256)%nat /\
  exists stream gs',
    encode 20 [glyph_a [x00]; glyph_b [x01]] = (Ok tt, stream) /\
    stream = MAGIC ++ str_encode 20 ++ DATA ++
             concat (map record_bytes [glyph_a [x00]; glyph_b [x01]]) /\
    decode stream = Ok (20, gs') /\
    length gs' = length [glyph_a [x00]; glyph_b [x01]] /\
    (forall i g, [glyph_a [x00]; glyph_b [x01]] !! i = Some g ->
       exists g', gs' !! i = Some g' /\
         delta g' = delta g /\ dst_bbox g' = dst_bbox g /\
         src_bbox g' = src_bbox g /\
         character g' = [byte_of_Z (Z.of_nat i)]) /\
    (positional [glyph_a [x00]; glyph_b [x01]] ->
     gs' = [glyph_a [x00]; glyph_b [x01]]).
Proof.
  assert (H1 : 10 <= 20 <= 99) by lia.
  assert (H2 : Forall Glyph_int16 [glyph_a [x00]; glyph_b [x01]]).
  { repeat constructor; unfold in_int16; cbn; lia. }
  assert (H3 : (length [glyph_a [x00]; glyph_b [x01]] <= 256)%nat)
    by (cbn; lia).
  split; [exact H1|]. split; [exact H2|]. split; [exact H3|].
  exact (roundtrip_two_digit_ysize 20 _ H1 H2 H3).
Defined.

(** C1 as stated fails.  A table of 257 glyphs is saved and does not load:
    the position 256 has no one-byte character.  A [ysize] of one digit is
    written as one byte, and [load] reads two. *)
Lemma roundtrip_fails :
  (0 <= 20 /\
   Forall Glyph_int16 (replicate 257 (glyph_a [x00])) /\
   fst (encode 20 (replicate 257 (glyph_a [x00]))) = Ok tt /\
   decode (snd (encode 20 (replicate 257 (glyph_a [x00]))))
     = Raise OverflowError) /\
  (0 <= 5 /\
   Forall Glyph_int16 [glyph_a [x00]] /\
   fst (encode 5 [glyph_a [x00]]) = Ok tt /\
   decode (snd (encode 5 [glyph_a [x00]])) = Raise (ValueError [x35; x3b])).
Proof.
  split; (split; [lia|]); split.
  - apply Forall_replicate. repeat constructor; unfold in_int16; cbn; lia.
  - split; vm_compute; reflexivity.
  - repeat constructor; unfold in_int16; cbn; lia.
  - split; vm_compute; reflexivity.
Qed.

(** C2, as the code has it: after one byte of the magic segment (offsets 0
    to 13) or of the data segment (offsets 16 to 22) of a stream that loads
    is changed, [load] raises [PILFontParsingError].  The error carries the
    offset at which the segment starts (0 or 16), the expected segment and
    the bytes read in its place; the changed byte is found in those bytes
    at its offset inside the segment, where they differ from the expected
    ones. *)
Theorem header_mutation_detected
    (s : list byte) (y : Z) (gs : list Glyph) (i : nat) (b : byte) :
  decode s = Ok (y, gs) ->
  (i < 14)%nat \/ (16 <= i < 23)%nat ->
  s !! i <> Some b ->
  let seek := if decide (i < 14)%nat then 0%nat else 16%nat in
  let expected := if decide (i < 14)%nat then MAGIC else DATA in
  let actual := take (length expected) (drop seek (<[i:=b]> s)) in
  decode (<[i:=b]> s) = Raise (PILFontParsingError seek expected actual) /\
  (seek <= i < seek + length expected)%nat /\
  actual !! (i - seek)%nat = Some b /\
  expected !! (i - seek)%nat = s !! i.
Proof.
  intros Hdec Hi Hb.
  destruct (decode_Ok_inv s y gs Hdec) as (ys & rest & -> & Hys & Hint & _).
  destruct ys as [|a0 [|a1 [|]]]; try discriminate Hys. clear Hys.
  destruct (decide (i < 14)%nat) as [Hlt|Hge]; cbv zeta.
  - change (length MAGIC) with 14%nat. rewrite drop_0.
    rewrite insert_app_l by exact Hlt.
    rewrite lookup_app_l in Hb by exact Hlt.
    rewrite lookup_app_l by exact Hlt.
    assert (Ht : take 14 (<[i:=b]> MAGIC ++ [a0; a1] ++ DATA ++ rest)
                 = <[i:=b]> MAGIC).
    { apply take_app_length'. rewrite length_insert. reflexivity. }
    rewrite Ht, Nat.sub_0_r.
    assert (Hl : <[i:=b]> MAGIC !! i = Some b)
      by (apply list_lookup_insert_eq; exact Hlt).
    split; [|split; [lia|split; [exact Hl|reflexivity]]].
    rewrite <- Ht at 2. apply decode_bad_magic. rewrite Ht.
    intros E. rewrite E in Hl. contradiction.
  - change (length DATA) with 7%nat.
    assert (Hr : (16 <= i < 23)%nat) by lia. clear Hi.
    assert (Hs : <[i:=b]> (MAGIC ++ [a0; a1] ++ DATA ++ rest)
                 = MAGIC ++ [a0; a1] ++ <[(i - 16)%nat:=b]> DATA ++ rest).
    { rewrite insert_app_r_alt by solve_len.
      rewrite insert_app_r_alt by solve_len.
      rewrite insert_app_l by solve_len.
      change (length MAGIC) with 14%nat. cbn [length].
      replace (i - 14 - 2)%nat with (i - 16)%nat by lia. reflexivity. }
    assert (Hd : (MAGIC ++ [a0; a1] ++ DATA ++ rest) !! i = DATA !! (i - 16)%nat).
    { rewrite lookup_app_r by solve_len.
      rewrite lookup_app_r by solve_len.
      rewrite lookup_app_l by solve_len.
      change (length MAGIC) with 14%nat. cbn [length].
      replace (i - 14 - 2)%nat with (i - 16)%nat by lia. reflexivity. }
    rewrite Hd in Hb. rewrite Hd, Hs.
    assert (Ht : take 7 (drop 16 (MAGIC ++ [a0; a1]
                   ++ <[(i - 16)%nat:=b]> DATA ++ rest))
                 = <[(i - 16)%nat:=b]> DATA).
    { change (drop 16 (MAGIC ++ [a0; a1] ++ ?l)) with l.
      apply take_app_length'. rewrite length_insert. reflexivity. }
    rewrite Ht.
    assert (Hl : <[(i - 16)%nat:=b]> DATA !! (i - 16)%nat = Some b).
    { apply list_lookup_insert_eq. change (length DATA) with 7%nat. lia. }
    split; [|split; [lia|split; [exact Hl|reflexivity]]].
    rewrite decode_header by (rewrite ?length_insert; reflexivity).
    rewrite Hint.
    destruct (decide (<[(i - 16)%nat:=b]> DATA = DATA)) as [E|]; [|reflexivity].
    rewrite E in Hl. contradiction.
Qed.

Lemma header_mutation_detected_witness :
  decode example_stream = Ok (20, [glyph_a [x00]; glyph_b [x01]]) /\
  ((3 < 14)%nat \/ (16 <= 3 < 23)%nat) /\
  example_stream !! 3%nat <> Some x67 /\
  decode (<[3%nat:=x67]> example_stream) =
    Raise (PILFontParsingError 0 MAGIC
             (take 14 (drop 0 (<[3%nat:=x67]> example_stream)))) /\
  (0 <= 3 < 0 + 14)%nat /\
  take 14 (drop 0 (<[3%nat:=x67]> example_stream)) !! (3 - 0)%nat = Some x67 /\
  MAGIC !! (3 - 0)%nat = example_stream !! 3%nat.
Proof.
  assert (H1 : decode example_stream = Ok (20, [glyph_a [x00]; glyph_b [x01]]))
    by (vm_compute; reflexivity).
  assert (H2 : (3 < 14)%nat \/ (16 <= 3 < 23)%nat) by (left; lia).
  assert (H3 : example_stream !! 3%nat <> Some x67) by (vm_compute; discriminate).
  split; [exact H1|]. split; [exact H2|]. split; [exact H3|].
  exact (header_mutation_detected example_stream 20 _ 3 x67 H1 H2 H3).
Defined.

(** C2 as stated fails: the offset in the error is where the segment
    starts, not where the changed byte is.  Here the byte at offset 3 is
    changed and the error names offset 0. *)
Lemma header_error_names_segment_start :
  decode example_stream = Ok (20, [glyph_a [x00]; glyph_b [x01]]) /\
  example_stream !! 3%nat = Some x66 /\
  decode (<[3%nat:=x67]> example_stream) =
    Raise (PILFontParsingError 0 MAGIC (<[3%nat:=x67]> MAGIC)) /\
  forall expected actual,
    decode (<[3%nat:=x67]> example_stream) <>
      Raise (PILFontParsingError 3 expected actual).
Proof.
  assert (H : decode (<[3%nat:=x67]> example_stream) =
              Raise (PILFontParsingError 0 MAGIC (<[3%nat:=x67]> MAGIC)))
    by (vm_compute; reflexivity).
  split; [vm_compute; reflexivity|]. split; [vm_compute; reflexivity|].
  split; [exact H|]. intros expected actual. rewrite H. discriminate.
Qed.

(** C3, as the code has it: after a header whose size field is two bytes
    that [int] reads, and at most 256 complete records, a last chunk of 1
    to 19 bytes makes [load] raise [struct.error], and no byte after the
    last record makes it return one glyph per record. *)
Theorem truncated_record_detected
    (ys : list byte) (y : Z) (records : list (list byte)) (tail : list byte) :
  length ys = 2%nat -> int_of_bytes ys = Ok y ->
  Forall (fun raw => length raw = 20%nat) records ->
  (length records <= 256)%nat ->
  (length tail < 20)%nat ->
  (tail <> [] ->
   decode (MAGIC ++ ys ++ DATA ++ concat records ++ tail) = Raise StructError) /\
  (tail = [] ->
   exists gs,
     decode (MAGIC ++ ys ++ DATA ++ concat records ++ tail) = Ok (y, gs) /\
     length gs = length records).
Proof.
  intros Hys Hint Hrec Hlen Htail.
  rewrite decode_stream by assumption. rewrite Hint.
  destruct (decode_records_Ok records Hrec 0) as (gs & -> & Hl & _); [lia|].
  split.
  - intros Hne. destruct tail; [contradiction|reflexivity].
  - intros ->. exists gs. auto.
Qed.

Lemma truncated_record_detected_witness :
  length (bytes_of_string "20") = 2%nat /\
  int_of_bytes (bytes_of_string "20") = Ok 20 /\
  Forall (fun raw => length raw = 20%nat) [replicate 20 x00] /\
  (length [replicate 20 x00] <= 256)%nat /\
  (length [x01; x02; x03] < 20)%nat /\ (length (@nil byte) < 20)%nat /\
  decode (MAGIC ++ bytes_of_string "20" ++ DATA ++
          concat [replicate 20 x00] ++ [x01; x02; x03]) = Raise StructError /\
  exists gs,
    decode (MAGIC ++ bytes_of_string "20" ++ DATA ++
            concat [replicate 20 x00] ++ []) = Ok (20, gs) /\
    length gs = length [replicate 20 x00].
Proof.
  assert (H1 : length (bytes_of_string "20") = 2%nat) by reflexivity.
  assert (H2 : int_of_bytes (bytes_of_string "20") = Ok 20) by reflexivity.
  assert (H3 : Forall (fun raw => length raw = 20%nat) [replicate 20 x00])
    by (repeat constructor).
  assert (H4 : (length [replicate 20 x00] <= 256)%nat) by (cbn; lia).
  assert (H5 : (length [x01; x02; x03] < 20)%nat) by (cbn; lia).
  assert (H6 : (length (@nil byte) < 20)%nat) by (cbn; lia).
  assert (H7 : [x01; x02; x03] <> []) by discriminate.
  split; [exact H1|]. split; [exact H2|]. split; [exact H3|].
  split; [exact H4|]. split; [exact H5|]. split; [exact H6|]. split.
  - exact (proj1 (truncated_record_detected _ 20 _ _ H1 H2 H3 H4 H5) H7).
  - exact (proj2 (truncated_record_detected _ 20 _ _ H1 H2 H3 H4 H6) eq_refl).
Defined.

(** C3 as stated fails.  Past 256 records: with 257 complete records [load]
    raises [OverflowError], whether or not bytes follow the last one.
    With a size field of one byte, as [save] writes it for a [ysize] of 5:
    [load] raises [ValueError] on the field, whether or not bytes follow
    the one complete record. *)
Lemma truncation_claim_fails :
  (decode (MAGIC ++ bytes_of_string "20" ++ DATA ++ replicate (257 * 20) x00)
     = Raise OverflowError /\
   decode (MAGIC ++ bytes_of_string "20" ++ DATA ++ replicate (257 * 20) x00
           ++ [x01; x02; x03])
     = Raise OverflowError) /\
  (encode 5 [glyph_a [x00]]
     = (Ok tt, MAGIC ++ bytes_of_string "5" ++ DATA ++
               record_bytes (glyph_a [x00])) /\
   int_of_bytes (bytes_of_string "5") = Ok 5 /\
   decode (MAGIC ++ bytes_of_string "5" ++ DATA ++
           record_bytes (glyph_a [x00]))
     = Raise (ValueError [x35; x3b]) /\
   decode (MAGIC ++ bytes_of_string "5" ++ DATA ++
           record_bytes (glyph_a [x00]) ++ [x01; x02; x03])
     = Raise (ValueError [x35; x3b])).
Proof. repeat split; vm_compute; reflexivity. Qed.

(** C4, as the code has it: after a header whose size field is two bytes
    that [int] reads, N complete records with N at most 256 load as N
    glyphs in read order; the glyph at position [i] is built from record
    [i] and its character is the single byte of value [i], whatever the
    record holds. *)
Theorem character_is_position
    (ys : list byte) (y : Z) (records : list (list byte)) :
  length ys = 2%nat -> int_of_bytes ys = Ok y ->
  Forall (fun raw => length raw = 20%nat) records ->
  (length records <= 256)%nat ->
  exists gs,
    decode (MAGIC ++ ys ++ DATA ++ concat records) = Ok (y, gs) /\
    length gs = length records /\
    forall i g, gs !! i = Some g ->
      (exists raw, records !! i = Some raw /\ load_glyph i raw = Ok g) /\
      (exists c, character g = [c] /\ Z_of_byte c = Z.of_nat i).
Proof.
  intros Hys Hint Hrec Hlen.
  rewrite <- (app_nil_r (concat records)).
  rewrite decode_stream by (assumption || cbn; lia). rewrite Hint.
  destruct (decode_records_Ok records Hrec 0) as (gs & -> & Hl & Hall); [lia|].
  exists gs. split; [reflexivity|]. split; [exact Hl|].
  intros i g Hg. destruct (Hall i g Hg) as (raw & Hraw & Hload).
  cbn [Nat.add] in Hload. split; [exists raw; auto|].
  assert (Hraw20 : length raw = 20%nat).
  { rewrite Forall_forall in Hrec. apply Hrec.
    apply list_elem_of_lookup. eauto. }
  rewrite load_glyph_full in Hload by exact Hraw20.
  destruct (decide (i < 256)%nat) as [Hi|]; [|discriminate Hload].
  injection Hload as <-. eexists. split; [reflexivity|].
  rewrite Z_of_byte_of_Z. apply Z.mod_small. lia.
Qed.

Lemma character_is_position_witness :
  length (bytes_of_string "20") = 2%nat /\
  int_of_bytes (bytes_of_string "20") = Ok 20 /\
  Forall (fun raw => length raw = 20%nat)
    [replicate 20 xff; replicate 20 x41] /\
  (length [replicate 20 xff; replicate 20 x41] <= 256)%nat /\
  exists gs,
    decode (MAGIC ++ bytes_of_string "20" ++ DATA ++
            concat [replicate 20 xff; replicate 20 x41]) = Ok (20, gs) /\
    length gs = length [replicate 20 xff; replicate 20 x41] /\
    forall i g, gs !! i = Some g ->
      (exists raw, [replicate 20 xff; replicate 20 x41] !! i = Some raw /\
                   load_glyph i raw = Ok g) /\
      (exists c, character g = [c] /\ Z_of_byte c = Z.of_nat i).
Proof.
  assert (H1 : length (bytes_of_string "20") = 2%nat) by reflexivity.
  assert (H2 : int_of_bytes (bytes_of_string "20") = Ok 20) by reflexivity.
  assert (H3 : Forall (fun raw => length raw = 20%nat)
                 [replicate 20 xff; replicate 20 x41])
    by (repeat constructor).
  assert (H4 : (length [replicate 20 xff; replicate 20 x41] <= 256)%nat)
    by (cbn; lia).
  split; [exact H1|]. split; [exact H2|]. split; [exact H3|].
  split; [exact H4|].
  exact (character_is_position _ 20 _ H1 H2 H3 H4).
Defined.

(** C4 as stated fails.  Past 256 records: 257 complete records give no
    table.  With a size field of one byte, as [save] writes it for a
    [ysize] of 5: one complete record gives no table either, [load] raises
    [ValueError] on the field. *)
Lemma no_table_claim_fails :
  (Forall (fun raw => length raw = 20%nat)
     (replicate 257 (replicate 20 xff)) /\
   length (replicate 257 (replicate 20 xff)) = 257%nat /\
   decode (MAGIC ++ bytes_of_string "10" ++ DATA ++
           concat (replicate 257 (replicate 20 xff))) = Raise OverflowError) /\
  (int_of_bytes (bytes_of_string "5") = Ok 5 /\
   length (replicate 20 xff) = 20%nat /\
   decode (MAGIC ++ bytes_of_string "5" ++ DATA ++
           concat [replicate 20 xff]) = Raise (ValueError [x35; x3b])).
Proof.
  split; [split; [apply Forall_replicate; reflexivity|]|];
    repeat split; vm_compute; reflexivity.
Qed.

(** The two bytes of [be16] are the big-endian digits of [v mod 65536], and
    [be16_value] reads a short back. *)
Lemma be16_big_endian (v : Z) :
  in_int16 v ->
  exists b0 b1,
    be16 v = [b0; b1] /\
    Z_of_byte b0 * 256 + Z_of_byte b1 = v mod 65536 /\
    be16_value b0 b1 = v.
Proof.
  intros Hv. eexists _, _. split; [reflexivity|].
  assert (Hm : 0 <= v mod 65536 < 65536) by (apply Z.mod_pos_bound; lia).
  split.
  - rewrite !Z_of_byte_of_Z.
    rewrite (Z.mod_small (_ / 256)) by
      (split; [apply Z.div_pos; lia | apply Z.div_lt_upper_bound; lia]).
    rewrite Z.mod_mod by lia. rewrite Z.mul_comm, <- Z.div_mod by lia.
    reflexivity.
  - rewrite <- unpack_h_be16_value. apply unpack_be16, Hv.
Qed.

(** C5: the record of a glyph whose fields fit a signed short is 20 bytes,
    the ten fields in the order dx, dy, dx0, dy0, dx1, dy1, sx0, sy0, sx1,
    sy1 (advance, destination box, source box), each as a big-endian signed
    16-bit integer; a 20-byte record is read as the same ten fields in the
    same order, and reading what was written gives the fields back. *)
Theorem record_layout
    (c : list byte) (dx dy dx0 dy0 dx1 dy1 sx0 sy0 sx1 sy1 : Z) :
  Forall in_int16 [dx; dy; dx0; dy0; dx1; dy1; sx0; sy0; sx1; sy1] ->
  let g := mkGlyph c (dx, dy) (sx0, sy0, sx1, sy1) (dx0, dy0, dx1, dy1) in
  let raw := be16 dx ++ be16 dy ++ be16 dx0 ++ be16 dy0 ++ be16 dx1 ++
             be16 dy1 ++ be16 sx0 ++ be16 sy0 ++ be16 sx1 ++ be16 sy1 in
  struct_pack_10h (Glyph_iter g) = Ok raw /\
  length raw = 20%nat /\
  (forall i, (i < 256)%nat ->
     load_glyph i raw =
       Ok (mkGlyph [byte_of_Z (Z.of_nat i)]
             (dx, dy) (sx0, sy0, sx1, sy1) (dx0, dy0, dx1, dy1))) /\
  (forall i b0 b1 b2 b3 b4 b5 b6 b7 b8 b9
          b10 b11 b12 b13 b14 b15 b16 b17 b18 b19,
     (i < 256)%nat ->
     load_glyph i [b0; b1; b2; b3; b4; b5; b6; b7; b8; b9;
                   b10; b11; b12; b13; b14; b15; b16; b17; b18; b19] =
       Ok (mkGlyph [byte_of_Z (Z.of_nat i)]
             (be16_value b0 b1, be16_value b2 b3)
             (be16_value b12 b13, be16_value b14 b15,
              be16_value b16 b17, be16_value b18 b19)
             (be16_value b4 b5, be16_value b6 b7,
              be16_value b8 b9, be16_value b10 b11))) /\
  (forall v, In v [dx; dy; dx0; dy0; dx1; dy1; sx0; sy0; sx1; sy1] ->
     exists b0 b1,
       be16 v = [b0; b1] /\
       Z_of_byte b0 * 256 + Z_of_byte b1 = v mod 65536 /\
       be16_value b0 b1 = v).
Proof.
  intros H g raw.
  assert (Hg : Glyph_int16 g) by exact H.
  split; [exact (struct_pack_record g Hg)|]. split; [reflexivity|].
  split; [|split].
  - intros i Hi. exact (load_glyph_record i g Hg Hi).
  - intros i b0 b1 b2 b3 b4 b5 b6 b7 b8 b9
      b10 b11 b12 b13 b14 b15 b16 b17 b18 b19 Hi.
    rewrite load_glyph_full by reflexivity.
    destruct (decide (i < 256)%nat); [|contradiction].
    unfold short_at. cbn [lookup list_lookup Nat.mul Nat.add].
    rewrite !unpack_h_be16_value. reflexivity.
  - intros v Hv. apply be16_big_endian.
    rewrite List.Forall_forall in H. apply H, Hv.
Qed.

Lemma record_layout_witness :
  Forall in_int16 [6; 0; 0; -16; 6; 0; 6; 0; 12; 16] /\
  struct_pack_10h (Glyph_iter (glyph_b [x01])) =
    Ok [x00; x06; x00; x00;  x00; x00; xff; xf0; x00; x06; x00; x00;
        x00; x06; x00; x00; x00; x0c; x00; x10].
Proof.
  assert (H : Forall in_int16 [6; 0; 0; -16; 6; 0; 6; 0; 12; 16])
    by (repeat constructor; unfold in_int16; lia).
  split; [exact H|].
  exact (proj1 (record_layout [x01] 6 0 0 (-16) 6 0 6 0 12 16 H)).
Defined.

(** Outside the range of a short, [struct.pack] raises. *)
Lemma pack_h_out_of_range (v : Z) : ~ in_int16 v -> pack_h v = Raise StructError.
Proof. intros H. unfold pack_h. rewrite in_int16b_false by assumption. reflexivity. Qed.

(** C6: the worked example.  Whatever characters the two glyphs carry,
    saving them with [ysize] 20 writes the magic segment, the text 20, the
    data segment and the 40 bytes of [example_records]; loading that stream
    gives [ysize] 20 and the two glyphs, numbered 0 and 1. *)
Theorem example_scenario (c0 c1 : list byte) :
  encode 20 [glyph_a c0; glyph_b c1] = (Ok tt, example_stream) /\
  length example_records = 40%nat /\
  example_records =
    concat (map be16 [6; 0; 0; -16; 6; 0; 0; 0; 6; 16;
                      6; 0; 0; -16; 6; 0; 6; 0; 12; 16]) /\
  decode example_stream = Ok (20, [glyph_a [x00]; glyph_b [x01]]).
Proof.
  repeat split; vm_compute; reflexivity.
Qed.

(** C7, as the code has it: [font[index]] is the glyph at [index] for an
    index from 0 to N-1, the glyph at [N + index] for an index from -N to
    -1, and [IndexError] for every other index. *)
Theorem getitem_index {Image} (self : PILFont Image) (index : Z) :
  let n := Z.of_nat (length (glyphs self)) in
  (0 <= index < n ->
   exists g, glyphs self !! Z.to_nat index = Some g /\
             getitem self index = Ok g) /\
  (- n <= index < 0 ->
   exists g, glyphs self !! Z.to_nat (n + index) = Some g /\
             getitem self index = Ok g) /\
  (index < - n \/ n <= index -> getitem self index = Raise IndexError).
Proof.
  intros n. unfold getitem, list_getitem. fold n.
  split; [|split].
  - intros H. destruct (Z.ltb_spec index 0); [lia|].
    destruct (Z.ltb_spec index 0), (Z.leb_spec n index); try lia. cbn.
    destruct (lookup_lt_is_Some_2 (glyphs self) (Z.to_nat index)) as [g Hg];
      [lia|].
    exists g. rewrite Hg. auto.
  - intros H. destruct (Z.ltb_spec index 0); [|lia].
    destruct (Z.ltb_spec (index + n) 0), (Z.leb_spec n (index + n)); try lia.
    cbn. rewrite (Z.add_comm n index).
    destruct (lookup_lt_is_Some_2 (glyphs self) (Z.to_nat (index + n)))
      as [g Hg]; [lia|].
    exists g. rewrite Hg. auto.
  - intros H. destruct (Z.ltb_spec index 0).
    + destruct (Z.ltb_spec (index + n) 0); [reflexivity|lia].
    + destruct (Z.ltb_spec index 0); [lia|].
      destruct (Z.leb_spec n index); [reflexivity|lia].
Qed.

Lemma getitem_index_witness :
  (- 2 <= -1 < 0 ->
   exists g, [glyph_a [x00]; glyph_b [x01]] !! Z.to_nat (2 + -1) = Some g /\
             getitem (mkPILFont tt 20 [glyph_a [x00]; glyph_b [x01]]) (-1)
               = Ok g) /\
  (2 < - 2 \/ 2 <= 2 ->
   getitem (mkPILFont tt 20 [glyph_a [x00]; glyph_b [x01]]) 2
     = Raise IndexError).
Proof.
  split.
  - exact (proj1 (proj2 (getitem_index
             (mkPILFont tt 20 [glyph_a [x00]; glyph_b [x01]]) (-1)))).
  - exact (proj2 (proj2 (getitem_index
             (mkPILFont tt 20 [glyph_a [x00]; glyph_b [x01]]) 2))).
Defined.

(** C7 as stated fails: the index -1 is outside 0 to N-1, and [font[-1]] is
    the last glyph, not an error. *)
Lemma getitem_negative_index :
  length (glyphs (mkPILFont tt 20 [glyph_a [x00]; glyph_b [x01]])) = 2%nat /\
  ~ (0 <= -1 < 2) /\
  getitem (mkPILFont tt 20 [glyph_a [x00]; glyph_b [x01]]) (-1)
    = Ok (glyph_b [x01]).
Proof. split; [reflexivity|]. split; [lia|reflexivity]. Qed.

(** A header with a size field of two bytes that [int] accepts, and
    nothing more, loads without error, with the parsed [ysize] and no
    glyph. *)
Theorem empty_table (ys : list byte) (y : Z) :
  length ys = 2%nat -> int_of_bytes ys = Ok y ->
  decode (MAGIC ++ ys ++ DATA) = Ok (y, []).
Proof.
  intros Hys Hint.
  pose proof (decode_stream ys [] [] Hys (List.Forall_nil _)) as H.
  cbn [concat app length] in H. rewrite app_nil_r in H.
  rewrite H by lia. rewrite Hint. reflexivity.
Qed.

Lemma empty_table_witness :
  length (bytes_of_string "20") = 2%nat /\
  int_of_bytes (bytes_of_string "20") = Ok 20 /\
  decode (MAGIC ++ bytes_of_string "20" ++ DATA) = Ok (20, []).
Proof.
  assert (H1 : length (bytes_of_string "20") = 2%nat) by reflexivity.
  assert (H2 : int_of_bytes (bytes_of_string "20") = Ok 20) by reflexivity.
  split; [exact H1|]. split; [exact H2|].
  exact (empty_table _ 20 H1 H2).
Defined.

(** C8: the header [save] writes for an empty table and a [ysize] of one
    or three digits is the magic segment, a size text that [int] reads and
    the data segment, and [load] does not accept it: it reads two bytes for
    the size, so it raises [ValueError] on the one-digit text followed by
    the first byte of the data segment, and the header error at offset 16
    after the first two of three digits. *)
Lemma empty_table_other_widths :
  (encode 5 [] = (Ok tt, MAGIC ++ bytes_of_string "5" ++ DATA) /\
   int_of_bytes (bytes_of_string "5") = Ok 5 /\
   decode (MAGIC ++ bytes_of_string "5" ++ DATA)
     = Raise (ValueError [x35; x3b])) /\
  (encode 100 [] = (Ok tt, MAGIC ++ bytes_of_string "100" ++ DATA) /\
   int_of_bytes (bytes_of_string "100") = Ok 100 /\
   decode (MAGIC ++ bytes_of_string "100" ++ DATA)
     = Raise (PILFontParsingError 16 DATA
                (bytes_of_string "0;" ++ [x0a] ++ bytes_of_string "DATA"))).
Proof. repeat split; vm_compute; reflexivity. Qed.

(** [load] is [decode] on the content of the metrics file, between opening
    the atlas and copying it. *)
Lemma load_decode {Image}
    (Image_open : string -> gmap string (list byte) -> result Image)
    (Image_copy : Image -> result Image)
    (metrics_path image_path : string) (fs : gmap string (list byte)) :
  load Image_open Image_copy metrics_path image_path fs =
    match Image_open image_path fs with
    | Raise e => Raise e
    | Ok glyph_atlas =>
        match fs !! metrics_path with
        | None => Raise (FileNotFoundError metrics_path)
        | Some content =>
            match decode content with
            | Raise e => Raise e
            | Ok (y, gs) =>
                match Image_copy glyph_atlas with
                | Raise e => Raise e
                | Ok copy => Ok (mkPILFont copy y gs)
                end
            end
        end
    end.
Proof. reflexivity. Qed.

(** C9: after a well-formed header, more than 256 complete records make
    [load] raise [OverflowError]: the position 256 of the 257th record does
    not fit the one byte of [to_bytes].  Hence a table that [load] returns
    has at most 256 glyphs. *)
Theorem more_than_256_records
    (ys : list byte) (y : Z) (records : list (list byte)) (tail : list byte) :
  length ys = 2%nat -> int_of_bytes ys = Ok y ->
  Forall (fun raw => length raw = 20%nat) records ->
  (256 < length records)%nat ->
  (length tail < 20)%nat ->
  let stream := MAGIC ++ ys ++ DATA ++ concat records ++ tail in
  decode stream = Raise OverflowError /\
  to_bytes_little 256 1 = Raise OverflowError /\
  (forall Image (Image_open : string -> gmap string (list byte) -> result Image)
          Image_copy metrics_path image_path fs glyph_atlas,
     Image_open image_path fs = Ok glyph_atlas ->
     fs !! metrics_path = Some stream ->
     load Image_open Image_copy metrics_path image_path fs
       = Raise OverflowError) /\
  (forall s y' gs, decode s = Ok (y', gs) -> (length gs <= 256)%nat) /\
  (forall Image (Image_open : string -> gmap string (list byte) -> result Image)
          Image_copy metrics_path image_path fs font,
     load Image_open Image_copy metrics_path image_path fs = Ok font ->
     (length (glyphs font) <= 256)%nat).
Proof.
  intros Hys Hint Hrec Hlen Htail stream.
  assert (Hd : decode stream = Raise OverflowError).
  { unfold stream. rewrite decode_stream by assumption. rewrite Hint.
    rewrite decode_records_overflow by (assumption || lia). reflexivity. }
  split; [exact Hd|]. split; [reflexivity|]. split; [|split].
  - intros Image Image_open Image_copy metrics_path image_path fs a Ha Hf.
    rewrite load_decode, Ha, Hf, Hd. reflexivity.
  - intros s y' gs H.
    destruct (decode_Ok_inv s y' gs H) as (_ & _ & _ & _ & _ & Hl). exact Hl.
  - intros Image Image_open Image_copy metrics_path image_path fs font.
    rewrite load_decode.
    destruct (Image_open image_path fs); [|discriminate].
    destruct (fs !! metrics_path) as [content|]; [|discriminate].
    destruct (decode content) as [[y' gs]|] eqn:E; [|discriminate].
    destruct (Image_copy _); [|discriminate].
    intros [= <-]. cbn [glyphs].
    destruct (decode_Ok_inv content y' gs E) as (_ & _ & _ & _ & _ & Hl).
    exact Hl.
Qed.

Lemma more_than_256_records_witness :
  length (bytes_of_string "20") = 2%nat /\
  int_of_bytes (bytes_of_string "20") = Ok 20 /\
  Forall (fun raw => length raw = 20%nat) (replicate 257 (replicate 20 x00)) /\
  (256 < length (replicate 257 (replicate 20 x00)))%nat /\
  (length (@nil byte) < 20)%nat /\
  decode (MAGIC ++ bytes_of_string "20" ++ DATA ++
          concat (replicate 257 (replicate 20 x00)) ++ []) = Raise OverflowError.
Proof.
  assert (H1 : length (bytes_of_string "20") = 2%nat) by reflexivity.
  assert (H2 : int_of_bytes (bytes_of_string "20") = Ok 20) by reflexivity.
  assert (H3 : Forall (fun raw => length raw = 20%nat)
                 (replicate 257 (replicate 20 x00)))
    by (apply Forall_replicate; reflexivity).
  assert (H4 : (256 < length (replicate 257 (replicate 20 x00)))%nat)
    by (rewrite length_replicate; lia).
  assert (H5 : (length (@nil byte) < 20)%nat) by (cbn; lia).
  split; [exact H1|]. split; [exact H2|]. split; [exact H3|].
  split; [exact H4|]. split; [exact H5|].
  exact (proj1 (more_than_256_records _ 20 _ _ H1 H2 H3 H4 H5)).
Defined.




(** * Further properties of the codec *)

(** ** Exhaustive checks over bytes *)

Lemma elem_of_all_bytes (b : byte) : b ∈ all_bytes.
Proof.
  unfold all_bytes. apply list_elem_of_omap.
  exists (N.to_nat (Byte.to_N b)). split.
  - apply elem_of_seq. pose proof (Byte.to_N_bounded b). lia.
  - rewrite N2Nat.id. apply Byte.of_to_N.
Qed.

Lemma forall_byte_spec (p : byte -> bool) :
  forall_byte p = true -> forall b, p b = true.
Proof.
  unfold forall_byte. rewrite forallb_forall. intros H b.
  apply H, list_elem_of_In, elem_of_all_bytes.
Qed.

Lemma field_ok_all : forall_byte (fun a => forall_byte (field_ok a)) = true.
Proof. vm_compute. reflexivity. Qed.

Lemma field_ok_spec (a b : byte) : field_ok a b = true.
Proof.
  pose proof (forall_byte_spec _ field_ok_all a) as H. cbv beta in H.
  exact (forall_byte_spec _ H b).
Qed.

Lemma one_byte_field_fails_all : forall_byte one_byte_field_fails = true.
Proof. vm_compute. reflexivity. Qed.

(** ** Writing back what was read *)

Lemma be16_unpack_h (b0 b1 : byte) : be16 (unpack_h b0 b1) = [b0; b1].
Proof.
  pose proof (Z_of_byte_range b0) as H0. pose proof (Z_of_byte_range b1) as H1.
  rewrite unpack_h_value. cbv zeta. unfold be16.
  set (x := Z_of_byte b0 * 256 + Z_of_byte b1).
  assert (Hx : (if 32768 <=? x then x - 65536 else x) mod 65536 = x).
  { destruct (Z.leb_spec 32768 x).
    - symmetry. apply Z.mod_unique with (q := -1); lia.
    - apply Z.mod_small. lia. }
  rewrite Hx. subst x.
  rewrite Z.div_add_l, Z.div_small, Z.add_0_r by lia.
  rewrite Z.add_comm, Z.mod_add, Z.mod_small by lia.
  rewrite !byte_of_Z_of_byte. reflexivity.
Qed.

(** A glyph that [load_glyph] builds: its record is the chunk it was read
    from, its fields fit a short and its character is its number. *)
Lemma load_glyph_Ok (i : nat) (raw : list byte) (g : Glyph) :
  load_glyph i raw = Ok g ->
  record_bytes g = raw /\ Glyph_int16 g /\
  character g = [byte_of_Z (Z.of_nat i)] /\ (i < 256)%nat.
Proof.
  intros H. destruct (load_glyph_Ok_lt i raw g H) as [Hi Hlen].
  rewrite load_glyph_full in H by exact Hlen.
  destruct (decide (i < 256)%nat); [|contradiction].
  injection H as <-.
  do 20 (destruct raw as [|? raw]; [discriminate Hlen|]).
  destruct raw; [|discriminate Hlen].
  unfold short_at. cbn [lookup list_lookup Nat.mul Nat.add].
  split; [|split; [|split; [reflexivity|exact Hi]]].
  - unfold record_bytes. cbn [delta dst_bbox src_bbox fst snd].
    rewrite !be16_unpack_h. reflexivity.
  - unfold Glyph_int16, Glyph_iter. cbn [delta dst_bbox src_bbox].
    repeat constructor; apply unpack_h_int16.
Qed.

(** What a run of the loop that returns has read. *)
Lemma load_loop_Ok (fuel : nat) :
  forall i acc fp gs,
    fst (load_loop fuel i acc fp) = Ok gs ->
    exists new,
      gs = acc ++ new /\
      remaining fp = concat (map record_bytes new) /\
      Forall Glyph_int16 new /\
      (forall k g, new !! k = Some g ->
         character g = [byte_of_Z (Z.of_nat (i + k))]) /\
      (i <= 256 -> i + length new <= 256)%nat.
Proof.
  induction fuel as [|fuel IH]; intros i acc fp gs H; [discriminate H|].
  cbn [load_loop] in H. unfold bind in H. rewrite fp_read_eq in H.
  destruct (take 20 (remaining fp)) as [|b raw] eqn:Hraw.
  - injection H as <-. exists []. rewrite app_nil_r.
    split; [reflexivity|]. split; [|split; [constructor|split]].
    + destruct (remaining fp); [reflexivity|discriminate Hraw].
    + intros k g Hk. discriminate Hk.
    + cbn. lia.
  - cbn [length Nat.eqb] in H. unfold lift in H.
    destruct (load_glyph i (b :: raw)) as [g|e] eqn:Hg; [|discriminate H].
    apply load_glyph_Ok in Hg as (Hrec & Hg16 & Hchar & Hi).
    apply IH in H as (new & -> & Hrem & Hall & Hpos & Hlen).
    exists (g :: new). rewrite <- app_assoc.
    split; [reflexivity|]. split; [|split; [|split]].
    + rewrite <- (take_drop 20 (remaining fp)), Hraw.
      rewrite remaining_advance in Hrem. rewrite Hrem.
      cbn [map concat]. rewrite Hrec. reflexivity.
    + constructor; assumption.
    + intros [|k] g' Hk.
      * injection Hk as <-. rewrite Nat.add_0_r. exact Hchar.
      * rewrite Nat.add_succ_r. apply (Hpos k g' Hk).
    + cbn [length]. lia.
Qed.

(** A stream that loads is the header around a size field that [int]
    reads, followed by the records of the glyphs it gives. *)
Lemma decode_Ok_stream (s : list byte) (y : Z) (gs : list Glyph) :
  decode s = Ok (y, gs) ->
  exists ys,
    s = MAGIC ++ ys ++ DATA ++ concat (map record_bytes gs) /\
    length ys = 2%nat /\ int_of_bytes ys = Ok y /\
    Forall Glyph_int16 gs /\ positional gs /\ (length gs <= 256)%nat.
Proof.
  unfold decode. rewrite load_metrics_eq, remaining_open_rb. cbv zeta.
  destruct (decide (take 14 s = MAGIC)) as [Hm|]; [|discriminate].
  rewrite !remaining_advance, remaining_open_rb.
  destruct (int_of_bytes (take 2 (drop 14 s))) as [y'|] eqn:Hy; [|discriminate].
  destruct (decide (take 7 (drop 2 (drop 14 s)) = DATA)) as [Hd|]; [|discriminate].
  destruct (fst (load_loop _ _ _ _)) as [gs'|] eqn:Hl; [|discriminate].
  intros [= -> ->].
  apply load_loop_Ok in Hl as (new & -> & Hrem & Hall & Hpos & Hlen).
  rewrite !remaining_advance, remaining_open_rb in Hrem.
  exists (take 2 (drop 14 s)). cbn [app].
  split; [|split; [|split; [exact Hy|split; [exact Hall|split]]]].
  - rewrite <- Hrem. rewrite <- Hd at 1. rewrite take_drop, take_drop.
    rewrite <- Hm at 1. rewrite take_drop. reflexivity.
  - apply (f_equal length) in Hd. rewrite length_take, length_drop in Hd.
    change (length DATA) with 7%nat in Hd.
    rewrite length_take. lia.
  - intros k g Hk. apply (Hpos k g Hk).
  - specialize (Hlen ltac:(lia)). lia.
Qed.

(** ** The header, stage by stage *)

(** X1: [_check_header] succeeds exactly when the unread part of the file
    starts with the expected bytes.  When it fails the error carries the
    position before the read, the expected bytes and the bytes read, fewer
    than expected at the end of the file.  Either way the content is kept
    and the bytes read are consumed. *)
Theorem check_header_contract (expected : list byte) (fp : File) :
  (fst (_check_header expected fp) = Ok tt <->
   exists rest, remaining fp = expected ++ rest) /\
  (forall e, fst (_check_header expected fp) = Raise e ->
     e = PILFontParsingError (pos fp) expected
           (take (length expected) (remaining fp))) /\
  data (snd (_check_header expected fp)) = data fp /\
  remaining (snd (_check_header expected fp))
    = drop (length expected) (remaining fp).
Proof.
  rewrite _check_header_eq. cbv zeta. cbn [fst snd].
  split; [|split; [|split]].
  - destruct (decide (take (length expected) (remaining fp) = expected))
      as [E|NE].
    + split; [|reflexivity]. intros _.
      exists (drop (length expected) (remaining fp)).
      rewrite <- (take_drop (length expected) (remaining fp)) at 1.
      rewrite E. reflexivity.
    + split; [discriminate|]. intros [rest Hrest]. exfalso. apply NE.
      rewrite Hrest. apply take_app_length.
  - intros e. destruct (decide _); [discriminate|]. intros [= <-]. reflexivity.
  - reflexivity.
  - apply remaining_advance.
Qed.

(** X2: a stream shorter than the magic segment, the empty stream
    included, is rejected with the header error at offset 0, and the bytes
    found are the whole stream. *)
Theorem short_stream_rejected (s : list byte) :
  (length s < 14)%nat ->
  decode s = Raise (PILFontParsingError 0 MAGIC s).
Proof.
  intros H. rewrite decode_bad_magic.
  - rewrite take_ge by lia. reflexivity.
  - intros E. apply (f_equal length) in E. rewrite length_take in E.
    change (length MAGIC) with 14%nat in E. lia.
Qed.

Lemma short_stream_rejected_witness :
  (length (@nil byte) < 14)%nat /\
  decode [] = Raise (PILFontParsingError 0 MAGIC []).
Proof.
  assert (H : (length (@nil byte) < 14)%nat) by (cbn; lia).
  split; [exact H|]. exact (short_stream_rejected [] H).
Defined.

Lemma decode_bad_field (s : list byte) (e : exn) :
  take 14 s = MAGIC ->
  int_of_bytes (take 2 (drop 14 s)) = Raise e ->
  decode s = Raise (ValueError (take 2 (drop 14 s))) /\
  e = ValueError (take 2 (drop 14 s)).
Proof.
  intros Hm He. split; [|exact (int_of_bytes_exn _ _ He)].
  unfold decode. rewrite load_metrics_eq, remaining_open_rb. cbv zeta.
  destruct (decide (take 14 s = MAGIC)); [|contradiction].
  rewrite remaining_advance, remaining_open_rb, He.
  f_equal. exact (int_of_bytes_exn _ _ He).
Qed.

(** X3: when the magic segment is right and the size field (the next two
    bytes, or what is left of the stream) is no integer literal, [load]
    raises [ValueError] on that field, whatever follows it. *)
Theorem malformed_ysize (s : list byte) (e : exn) :
  take 14 s = MAGIC ->
  int_of_bytes (take 2 (drop 14 s)) = Raise e ->
  decode s = Raise (ValueError (take 2 (drop 14 s))) /\
  e = ValueError (take 2 (drop 14 s)).
Proof. apply decode_bad_field. Qed.

Lemma malformed_ysize_witness :
  take 14 (MAGIC ++ bytes_of_string "2x" ++ DATA) = MAGIC /\
  int_of_bytes (take 2 (drop 14 (MAGIC ++ bytes_of_string "2x" ++ DATA)))
    = Raise (ValueError (bytes_of_string "2x")) /\
  decode (MAGIC ++ bytes_of_string "2x" ++ DATA)
    = Raise (ValueError (take 2 (drop 14 (MAGIC ++ bytes_of_string "2x" ++ DATA)))).
Proof.
  assert (H1 : take 14 (MAGIC ++ bytes_of_string "2x" ++ DATA) = MAGIC)
    by reflexivity.
  assert (H2 : int_of_bytes
                 (take 2 (drop 14 (MAGIC ++ bytes_of_string "2x" ++ DATA)))
               = Raise (ValueError (bytes_of_string "2x")))
    by reflexivity.
  split; [exact H1|]. split; [exact H2|].
  exact (proj1 (malformed_ysize _ _ H1 H2)).
Defined.

Lemma decode_bad_data_segment (s : list byte) (y : Z) :
  take 14 s = MAGIC ->
  int_of_bytes (take 2 (drop 14 s)) = Ok y ->
  take 7 (drop 16 s) <> DATA ->
  decode s =
    Raise (PILFontParsingError (14 + length (take 2 (drop 14 s))) DATA
             (take 7 (drop 16 s))) /\
  (15 <= 14 + length (take 2 (drop 14 s)) <= 16)%nat.
Proof.
  intros Hm Hy Hd.
  assert (Hlen : (14 <= length s)%nat).
  { apply (f_equal length) in Hm. rewrite length_take in Hm.
    change (length MAGIC) with 14%nat in Hm. lia. }
  assert (Hf : (1 <= length (take 2 (drop 14 s)) <= 2)%nat).
  { rewrite length_take. split; [|lia].
    destruct (take 2 (drop 14 s)) eqn:E; [discriminate Hy|].
    apply (f_equal length) in E. rewrite length_take in E.
    cbn [length] in E. lia. }
  split; [|lia].
  unfold decode. rewrite load_metrics_eq, remaining_open_rb. cbv zeta.
  destruct (decide (take 14 s = MAGIC)); [|contradiction].
  rewrite !remaining_advance, remaining_open_rb, Hy.
  rewrite drop_drop. change (14 + 2)%nat with 16%nat.
  destruct (decide (take 7 (drop 16 s) = DATA)); [contradiction|].
  f_equal. f_equal. unfold advance. cbn [pos].
  rewrite remaining_open_rb. cbn [open_rb pos data].
  rewrite Hm. change (length MAGIC) with 14%nat.
  unfold remaining. cbn [pos data Nat.add]. reflexivity.
Qed.

(** X4: when the magic segment and the size field are accepted and the
    next seven bytes are not the data segment, the header error carries the
    position after the field: 16, or 15 when the stream ends inside the
    field. *)
Theorem data_segment_rejected (s : list byte) (y : Z) :
  take 14 s = MAGIC ->
  int_of_bytes (take 2 (drop 14 s)) = Ok y ->
  take 7 (drop 16 s) <> DATA ->
  decode s =
    Raise (PILFontParsingError (14 + length (take 2 (drop 14 s))) DATA
             (take 7 (drop 16 s))) /\
  (15 <= 14 + length (take 2 (drop 14 s)) <= 16)%nat.
Proof. apply decode_bad_data_segment. Qed.

Lemma data_segment_rejected_witness :
  take 14 (MAGIC ++ [x35]) = MAGIC /\
  int_of_bytes (take 2 (drop 14 (MAGIC ++ [x35]))) = Ok 5 /\
  take 7 (drop 16 (MAGIC ++ [x35])) <> DATA /\
  decode (MAGIC ++ [x35]) = Raise (PILFontParsingError 15 DATA []).
Proof.
  assert (H1 : take 14 (MAGIC ++ [x35]) = MAGIC) by reflexivity.
  assert (H2 : int_of_bytes (take 2 (drop 14 (MAGIC ++ [x35]))) = Ok 5)
    by reflexivity.
  assert (H3 : take 7 (drop 16 (MAGIC ++ [x35])) <> DATA)
    by (vm_compute; discriminate).
  split; [exact H1|]. split; [exact H2|]. split; [exact H3|].
  exact (proj1 (data_segment_rejected _ 5 H1 H2 H3)).
Defined.

(** X5: the [ysize] of a font that [load] returns is between -9 and 99:
    the size field is two bytes. *)
Theorem loaded_ysize_range (s : list byte) (y : Z) (gs : list Glyph) :
  decode s = Ok (y, gs) -> -9 <= y <= 99.
Proof.
  intros H. destruct (decode_Ok_stream s y gs H) as (ys & _ & Hl & Hy & _).
  destruct ys as [|a [|b [|]]]; try discriminate Hl.
  pose proof (field_ok_spec a b) as F. unfold field_ok in F.
  rewrite Hy in F. rewrite !andb_true_iff in F. lia.
Qed.

Lemma loaded_ysize_range_witness :
  decode example_stream = Ok (20, [glyph_a [x00]; glyph_b [x01]]) /\
  -9 <= 20 <= 99.
Proof.
  assert (H : decode example_stream = Ok (20, [glyph_a [x00]; glyph_b [x01]]))
    by (vm_compute; reflexivity).
  split; [exact H|]. exact (loaded_ysize_range _ _ _ H).
Defined.

Lemma load_loop_exn (fuel : nat) :
  forall i acc fp e,
    fst (load_loop fuel i acc fp) = Raise e ->
    e = StructError \/ e = OverflowError \/ e = OutOfFuel.
Proof.
  induction fuel as [|fuel IH]; intros i acc fp e H.
  - injection H as <-. auto.
  - cbn [load_loop] in H. unfold bind in H. rewrite fp_read_eq in H.
    destruct (take 20 (remaining fp)) as [|b raw]; [discriminate H|].
    cbn [length Nat.eqb] in H. unfold lift in H.
    destruct (load_glyph i (b :: raw)) as [g|e'] eqn:Hg.
    + exact (IH _ _ _ _ H).
    + injection H as <-. apply load_glyph_exn in Hg as [-> | ->]; auto.
Qed.

(** X6: the exceptions of the metrics half of [load].  It raises the
    header error for the magic segment at offset 0 or for the data segment
    at offset 15 or 16, [ValueError] on a size field of at most two bytes,
    [struct.error] or [OverflowError], and nothing else. *)
Theorem decode_exceptions (s : list byte) (e : exn) :
  decode s = Raise e ->
  (exists actual, e = PILFontParsingError 0 MAGIC actual /\ actual <> MAGIC) \/
  (exists seek actual,
     e = PILFontParsingError seek DATA actual /\
     (15 <= seek <= 16)%nat /\ actual <> DATA) \/
  (exists field, e = ValueError field /\ (length field <= 2)%nat) \/
  e = StructError \/ e = OverflowError.
Proof.
  intros H. pose proof (decode_fuel s) as Hfuel. revert H Hfuel.
  destruct (decide (take 14 s = MAGIC)) as [Hm|Hm].
  2:{ rewrite decode_bad_magic by exact Hm. intros [= <-] _. left. eauto. }
  destruct (int_of_bytes (take 2 (drop 14 s))) as [y|e'] eqn:Hy.
  2:{ destruct (decode_bad_field s e' Hm Hy) as [-> _].
      intros [= <-] _. right. right. left. eexists. split; [reflexivity|].
      rewrite length_take. lia. }
  destruct (decide (take 7 (drop 16 s) = DATA)) as [Hd|Hd].
  2:{ destruct (decode_bad_data_segment s y Hm Hy Hd) as [-> Hr].
      intros [= <-] _. right. left. eauto. }
  unfold decode. rewrite load_metrics_eq, remaining_open_rb. cbv zeta.
  destruct (decide (take 14 s = MAGIC)); [|contradiction].
  rewrite !remaining_advance, remaining_open_rb, Hy, drop_drop.
  change (14 + 2)%nat with 16%nat.
  destruct (decide (take 7 (drop 16 s) = DATA)); [|contradiction].
  destruct (fst (load_loop _ _ _ _)) as [gs|e'] eqn:Hl; [discriminate|].
  intros [= <-] Hne.
  apply load_loop_exn in Hl as [-> | [-> | ->]]; auto. contradiction.
Qed.

Lemma decode_exceptions_witness :
  decode [x50; x49] = Raise (PILFontParsingError 0 MAGIC [x50; x49]) /\
  ((exists actual,
      PILFontParsingError 0 MAGIC [x50; x49]
        = PILFontParsingError 0 MAGIC actual /\ actual <> MAGIC) \/
   (exists seek actual,
      PILFontParsingError 0 MAGIC [x50; x49]
        = PILFontParsingError seek DATA actual /\
      (15 <= seek <= 16)%nat /\ actual <> DATA) \/
   (exists field,
      PILFontParsingError 0 MAGIC [x50; x49] = ValueError field /\
      (length field <= 2)%nat) \/
   PILFontParsingError 0 MAGIC [x50; x49] = StructError \/
   PILFontParsingError 0 MAGIC [x50; x49] = OverflowError).
Proof.
  assert (H : decode [x50; x49]
              = Raise (PILFontParsingError 0 MAGIC [x50; x49]))
    by reflexivity.
  split; [exact H|]. exact (decode_exceptions _ _ H).
Defined.

(** ** The decimal text of [ysize] *)

Lemma uint_text_no_semicolon (d : Decimal.uint) :
  Forall (fun c => c <> x3b) (bytes_of_string (NilEmpty.string_of_uint d)).
Proof.
  induction d; cbn; constructor; (discriminate || assumption).
Qed.

(** The text [str] writes is not empty and holds no byte of the data
    segment's first character. *)
Lemma str_encode_chars (y : Z) :
  str_encode y <> [] /\ Forall (fun c => c <> x3b) (str_encode y).
Proof.
  unfold str_encode, NilZero.string_of_int.
  destruct (Z.to_int y) as [d|d]; unfold NilZero.string_of_uint.
  - destruct d; (split; [discriminate|]);
      try (repeat constructor; discriminate);
      apply (uint_text_no_semicolon (_ d)).
  - destruct d; (split; [discriminate|]);
      try (repeat constructor; discriminate);
      (constructor; [discriminate|]); apply (uint_text_no_semicolon (_ d)).
Qed.

(** A text of two bytes is one [int] reads back. *)
Lemma int_of_str_two_bytes (y : Z) :
  length (str_encode y) = 2%nat ->
  int_of_bytes (str_encode y) = Ok y /\ (-9 <= y <= -1 \/ 10 <= y <= 99).
Proof.
  pose proof (DecimalZ.of_to y) as Hy. unfold str_encode.
  destruct (Z.to_int y) as [d|d] eqn:E; intros Hlen.
  - destruct d as [|d|d|d|d|d|d|d|d|d|d]; try discriminate Hlen;
      destruct d as [|d|d|d|d|d|d|d|d|d|d]; try discriminate Hlen;
      destruct d; try discriminate Hlen;
      cbn in Hy; subst y;
      first [ vm_compute in E; discriminate E
            | split; [vm_compute; reflexivity | lia] ].
  - destruct d as [|d|d|d|d|d|d|d|d|d|d]; try discriminate Hlen;
      try (destruct d; try discriminate Hlen);
      cbn in Hy; subst y;
      first [ vm_compute in E; discriminate E
            | split; [vm_compute; reflexivity | lia] ].
Qed.

Lemma minus_digit_all : forallb two_digit_ok (seqZ (-9) 9) = true.
Proof. vm_compute. reflexivity. Qed.

Lemma str_encode_two_bytes (y : Z) :
  -9 <= y <= -1 \/ 10 <= y <= 99 -> length (str_encode y) = 2%nat.
Proof.
  intros [Hy|Hy].
  - pose proof minus_digit_all as H. rewrite forallb_forall in H.
    specialize (H y). unfold two_digit_ok in H.
    rewrite andb_true_iff in H. destruct H as [H _].
    + apply list_elem_of_In, elem_of_seqZ. lia.
    + apply Nat.eqb_eq, H.
  - apply int_of_str_two_digit, Hy.
Qed.

Lemma str_encode_one_byte (y : Z) :
  0 <= y <= 9 -> exists c, str_encode y = [c].
Proof.
  intros Hy.
  assert (H : y = 0 \/ y = 1 \/ y = 2 \/ y = 3 \/ y = 4 \/ y = 5 \/ y = 6 \/
              y = 7 \/ y = 8 \/ y = 9) by lia.
  repeat destruct H as [-> | H]; try subst y; eexists; reflexivity.
Qed.

(** ** The record stage on any bytes *)

(** Bytes cut into complete records and a shorter tail. *)
Lemma chunks_of (n : nat) :
  forall (rest : list byte) (t : nat),
    length rest = (20 * n + t)%nat -> (t < 20)%nat ->
    exists records tail,
      rest = concat records ++ tail /\
      Forall (fun raw => length raw = 20%nat) records /\
      length records = n /\ length tail = t.
Proof.
  induction n as [|n IH]; intros rest t Hlen Ht.
  - exists [], rest. cbn. split; [reflexivity|]. split; [constructor|].
    split; [reflexivity|lia].
  - destruct (IH (drop 20 rest) t) as (records & tail & Hr & Hall & Hn & Htl).
    + rewrite length_drop. lia.
    + exact Ht.
    + exists (take 20 rest :: records), tail. cbn [concat length].
      split; [|split; [|split]].
      * rewrite <- app_assoc, <- Hr. symmetry. apply take_drop.
      * constructor; [|exact Hall]. rewrite length_take. lia.
      * lia.
      * exact Htl.
Qed.

(** X7: after an accepted header the outcome of [load] depends on the
    number of bytes that follow, not on their values: with [n] complete
    records and [t] bytes more (fewer than 20), it raises [OverflowError]
    when [n] is above 256, else [struct.error] when [t] is not 0, else it
    returns [n] glyphs. *)
Theorem record_stage_by_length
    (ys rest : list byte) (y : Z) (n t : nat) :
  length ys = 2%nat -> int_of_bytes ys = Ok y ->
  length rest = (20 * n + t)%nat -> (t < 20)%nat ->
  (256 < n ->
   decode (MAGIC ++ ys ++ DATA ++ rest) = Raise OverflowError)%nat /\
  (n <= 256 -> t <> 0 ->
   decode (MAGIC ++ ys ++ DATA ++ rest) = Raise StructError)%nat /\
  (n <= 256 -> t = 0 ->
   exists gs, decode (MAGIC ++ ys ++ DATA ++ rest) = Ok (y, gs) /\
              length gs = n)%nat.
Proof.
  intros Hys Hint Hlen Ht.
  destruct (chunks_of n rest t Hlen Ht)
    as (records & tail & -> & Hall & Hn & Htl).
  rewrite decode_stream by (assumption || lia). rewrite Hint.
  split; [|split].
  - intros Hbig. rewrite decode_records_overflow by (assumption || lia).
    reflexivity.
  - intros Hsmall Hne.
    destruct (decode_records_Ok records Hall 0) as (gs & -> & _); [lia|].
    destruct tail; [cbn in Htl; lia|reflexivity].
  - intros Hsmall ->.
    destruct (decode_records_Ok records Hall 0) as (gs & -> & Hl & _); [lia|].
    destruct tail; [|discriminate Htl]. exists gs. split; [reflexivity|lia].
Qed.

Lemma record_stage_by_length_witness :
  length (bytes_of_string "20") = 2%nat /\
  int_of_bytes (bytes_of_string "20") = Ok 20 /\
  length (replicate 45 x41) = (20 * 2 + 5)%nat /\ (5 < 20)%nat /\
  (2 <= 256 -> 5 <> 0 ->
   decode (MAGIC ++ bytes_of_string "20" ++ DATA ++ replicate 45 x41)
     = Raise StructError)%nat.
Proof.
  assert (H1 : length (bytes_of_string "20") = 2%nat) by reflexivity.
  assert (H2 : int_of_bytes (bytes_of_string "20") = Ok 20) by reflexivity.
  assert (H3 : length (replicate 45 x41) = (20 * 2 + 5)%nat) by reflexivity.
  assert (H4 : (5 < 20)%nat) by lia.
  split; [exact H1|]. split; [exact H2|]. split; [exact H3|].
  split; [exact H4|].
  exact (proj1 (proj2 (record_stage_by_length _ _ 20 2 5 H1 H2 H3 H4))).
Defined.

Lemma length_concat_records (gs : list Glyph) :
  length (concat (map record_bytes gs)) = (20 * length gs)%nat.
Proof.
  induction gs as [|g gs IH]; [reflexivity|].
  cbn [map concat length]. rewrite length_app, IH, length_record_bytes. lia.
Qed.

(** X8: what every font that [load] returns satisfies.  The stream is 23
    header bytes and 20 bytes per glyph; every field of every glyph is in
    the range of a signed short; the character of the glyph at position
    [i] is the single byte [i]. *)
Theorem loaded_table_invariants (s : list byte) (y : Z) (gs : list Glyph) :
  decode s = Ok (y, gs) ->
  length s = (23 + 20 * length gs)%nat /\
  Forall Glyph_int16 gs /\
  positional gs.
Proof.
  intros H.
  destruct (decode_Ok_stream s y gs H) as (ys & -> & Hl & _ & Hall & Hpos & _).
  split; [|split; assumption].
  rewrite !length_app, Hl, length_concat_records.
  change (length MAGIC) with 14%nat. change (length DATA) with 7%nat. lia.
Qed.

Lemma loaded_table_invariants_witness :
  decode example_stream = Ok (20, [glyph_a [x00]; glyph_b [x01]]) /\
  length example_stream = (23 + 20 * 2)%nat.
Proof.
  assert (H : decode example_stream = Ok (20, [glyph_a [x00]; glyph_b [x01]]))
    by (vm_compute; reflexivity).
  split; [exact H|]. exact (proj1 (loaded_table_invariants _ _ _ H)).
Defined.

(** ** Saving what was loaded *)

(** X9: [save] never fails on a loaded font, and it writes the records of
    the loaded stream byte for byte after a header with the decimal text of
    [ysize].  When [ysize] is not from 0 to 9 the stream written is the
    stream that was loaded. *)
Theorem load_then_save (s : list byte) (y : Z) (gs : list Glyph) :
  decode s = Ok (y, gs) ->
  encode y gs = (Ok tt, MAGIC ++ str_encode y ++ DATA ++ drop 23 s) /\
  (y < 0 \/ 10 <= y -> encode y gs = (Ok tt, s)).
Proof.
  intros H.
  destruct (decode_Ok_stream s y gs H) as (ys & -> & Hl & Hy & Hall & _).
  rewrite encode_records by exact Hall.
  destruct ys as [|a [|b [|]]]; try discriminate Hl.
  split; [reflexivity|]. intros Hrange.
  pose proof (field_ok_spec a b) as F. unfold field_ok in F.
  rewrite Hy in F. rewrite !andb_true_iff in F. destruct F as [_ F].
  destruct ((0 <=? y) && (y <=? 9)) eqn:E; [lia|].
  apply bool_decide_eq_true in F. rewrite F. reflexivity.
Qed.

Lemma load_then_save_witness :
  decode example_stream = Ok (20, [glyph_a [x00]; glyph_b [x01]]) /\
  (20 < 0 \/ 10 <= 20) /\
  encode 20 [glyph_a [x00]; glyph_b [x01]] = (Ok tt, example_stream).
Proof.
  assert (H1 : decode example_stream
               = Ok (20, [glyph_a [x00]; glyph_b [x01]]))
    by (vm_compute; reflexivity).
  assert (H2 : 20 < 0 \/ 10 <= 20) by (right; lia).
  split; [exact H1|]. split; [exact H2|].
  exact (proj2 (load_then_save _ _ _ H1) H2).
Defined.

(** X10: a loaded font whose [ysize] is from 0 to 9 (its size field was
    padded, as in a zero or a space before the digit) is saved with a
    one-byte size text, one byte shorter than the loaded stream, and [load]
    rejects what was saved with [ValueError]. *)
Theorem load_then_save_one_digit (s : list byte) (y : Z) (gs : list Glyph) :
  decode s = Ok (y, gs) ->
  0 <= y <= 9 ->
  exists c,
    str_encode y = [c] /\
    encode y gs = (Ok tt, MAGIC ++ [c] ++ DATA ++ drop 23 s) /\
    length (snd (encode y gs)) = (length s - 1)%nat /\
    decode (snd (encode y gs)) = Raise (ValueError [c; x3b]).
Proof.
  intros H Hy.
  destruct (str_encode_one_byte y Hy) as [c Hc]. exists c.
  split; [exact Hc|].
  destruct (decode_Ok_stream s y gs H) as (ys & Hs & Hl & _ & Hall & _).
  rewrite encode_records by exact Hall. rewrite Hc. cbn [snd].
  assert (Hd : drop 23 s = concat (map record_bytes gs)).
  { rewrite Hs. destruct ys as [|a [|b [|]]]; try discriminate Hl.
    reflexivity. }
  rewrite Hd. split; [reflexivity|]. split.
  - rewrite Hs, !length_app, Hl. cbn [length]. lia.
  - pose proof (forall_byte_spec _ one_byte_field_fails_all c) as F.
    unfold one_byte_field_fails in F.
    destruct (int_of_bytes [c; x3b]) as [|e] eqn:E; [discriminate F|].
    exact (proj1 (decode_bad_field
                    (MAGIC ++ [c] ++ DATA ++ concat (map record_bytes gs))
                    e eq_refl E)).
Qed.

Lemma load_then_save_one_digit_witness :
  decode (MAGIC ++ bytes_of_string "05" ++ DATA) = Ok (5, []) /\
  0 <= 5 <= 9 /\
  exists c,
    str_encode 5 = [c] /\
    encode 5 [] = (Ok tt, MAGIC ++ [c] ++ DATA ++
                          drop 23 (MAGIC ++ bytes_of_string "05" ++ DATA)) /\
    length (snd (encode 5 []))
      = (length (MAGIC ++ bytes_of_string "05" ++ DATA) - 1)%nat /\
    decode (snd (encode 5 [])) = Raise (ValueError [c; x3b]).
Proof.
  assert (H1 : decode (MAGIC ++ bytes_of_string "05" ++ DATA) = Ok (5, []))
    by (vm_compute; reflexivity).
  assert (H2 : 0 <= 5 <= 9) by lia.
  split; [exact H1|]. split; [exact H2|].
  exact (load_then_save_one_digit _ _ _ H1 H2).
Defined.

(** ** When [save] fails *)

Lemma pack_hs_Ok (vals : list Z) (bs : list byte) :
  pack_hs vals = Ok bs -> Forall in_int16 vals.
Proof.
  revert bs. induction vals as [|v vals IH]; intros bs H; [constructor|].
  cbn [pack_hs] in H. unfold pack_h in H.
  destruct (in_int16b v) eqn:Hv; [|discriminate H].
  destruct (pack_hs vals) as [tl|]; [|discriminate H].
  constructor; [|exact (IH tl eq_refl)].
  unfold in_int16b in Hv. unfold in_int16. lia.
Qed.

Lemma pack_hs_exn (vals : list Z) (e : exn) :
  pack_hs vals = Raise e -> e = StructError.
Proof.
  induction vals as [|v vals IH]; intros H; [discriminate H|].
  cbn [pack_hs] in H. unfold pack_h in H.
  destruct (in_int16b v); [|congruence].
  destruct (pack_hs vals) as [tl|e']; [discriminate H|].
  injection H as <-. exact (IH eq_refl).
Qed.

(** One glyph: [struct.pack] returns its record when every field fits a
    short, and raises [struct.error] otherwise. *)
Lemma struct_pack_glyph (g : Glyph) :
  (Glyph_int16 g /\ struct_pack_10h (Glyph_iter g) = Ok (record_bytes g)) \/
  (~ Glyph_int16 g /\ struct_pack_10h (Glyph_iter g) = Raise StructError).
Proof.
  destruct (struct_pack_10h (Glyph_iter g)) as [raw|e] eqn:E.
  - left. assert (Hg : Glyph_int16 g).
    { unfold struct_pack_10h in E.
      destruct (Nat.eqb _ _); [|discriminate E]. exact (pack_hs_Ok _ _ E). }
    split; [exact Hg|]. rewrite <- E. apply struct_pack_record, Hg.
  - right. split.
    + intros Hg. rewrite struct_pack_record in E by exact Hg. discriminate E.
    + unfold struct_pack_10h in E. destruct (Nat.eqb _ _).
      * f_equal. exact (pack_hs_exn _ _ E).
      * symmetry. exact E.
Qed.

Lemma save_loop_partial (gs1 : list Glyph) (g : Glyph) (gs2 : list Glyph) :
  Forall Glyph_int16 gs1 -> ~ Glyph_int16 g ->
  forall fp, pos fp = length (data fp) ->
  save_loop (gs1 ++ g :: gs2) fp =
    (Raise StructError,
     mkFile (data fp ++ concat (map record_bytes gs1))
       (length (data fp ++ concat (map record_bytes gs1)))).
Proof.
  intros H1 Hg. induction H1 as [|g1 gs1 Hg1 H1 IH]; intros fp Hfp.
  - cbn [app save_loop map concat]. unfold bind, lift.
    destruct (struct_pack_glyph g) as [[Hok _]|[_ ->]]; [contradiction|].
    rewrite app_nil_r, <- Hfp. destruct fp; reflexivity.
  - cbn [app save_loop map concat]. unfold bind, lift.
    rewrite struct_pack_record by exact Hg1.
    rewrite fp_write_end by exact Hfp.
    rewrite IH by reflexivity. cbn [data]. rewrite <- !app_assoc. reflexivity.
Qed.

Lemma save_loop_outcome (gs : list Glyph) :
  forall fp,
    (fst (save_loop gs fp) = Ok tt /\ Forall Glyph_int16 gs) \/
    (fst (save_loop gs fp) = Raise StructError /\ ~ Forall Glyph_int16 gs).
Proof.
  induction gs as [|g gs IH]; intros fp.
  - left. split; [reflexivity|constructor].
  - cbn [save_loop]. unfold bind, lift.
    destruct (struct_pack_glyph g) as [[Hg ->]|[Hg ->]].
    + destruct (fp_write (record_bytes g) fp) as [[[]|e] fp'] eqn:W;
        [|discriminate W].
      destruct (IH fp') as [[-> Hall]|[-> Hall]].
      * left. split; [reflexivity|constructor; assumption].
      * right. split; [reflexivity|].
        intros H. apply Forall_cons in H as [_ H]. contradiction.
    + right. split; [reflexivity|].
      intros H. apply Forall_cons in H as [H _]. contradiction.
Qed.

Lemma encode_cases (y : Z) (gs : list Glyph) :
  (fst (encode y gs) = Ok tt /\ Forall Glyph_int16 gs) \/
  (fst (encode y gs) = Raise StructError /\ ~ Forall Glyph_int16 gs).
Proof.
  unfold encode, save_metrics, bind.
  rewrite !fp_write_end by reflexivity.
  match goal with
  | |- context [save_loop gs ?fp] =>
      destruct (save_loop_outcome gs fp) as [[Hr Hall]|[Hr Hall]];
      destruct (save_loop gs fp) as [r fp']
  end; cbn [fst] in *; subst r; auto.
Qed.

(** X11: for a [ysize] that [str] converts (at most 4300 digits), [save]
    writes the metrics without error exactly when every field of every
    glyph is in the range of a signed short; otherwise it raises
    [struct.error]. *)
Theorem encode_outcome (y : Z) (gs : list Glyph) :
  str_converts y ->
  (fst (encode y gs) = Ok tt <-> Forall Glyph_int16 gs) /\
  (forall e, fst (encode y gs) = Raise e -> e = StructError).
Proof.
  intros _.
  destruct (encode_cases y gs) as [[-> Hall]|[-> Hall]].
  - split; [tauto|discriminate].
  - split; [split; [discriminate|contradiction]|]. intros e [= <-]. reflexivity.
Qed.

Lemma str_converts_20 : str_converts 20.
Proof. unfold str_converts. apply Z.ltb_lt. vm_compute. reflexivity. Qed.

Lemma encode_outcome_witness :
  str_converts 20 /\
  (fst (encode 20 [glyph_a [x00]]) = Ok tt <->
   Forall Glyph_int16 [glyph_a [x00]]) /\
  (forall e, fst (encode 20 [glyph_a [x00]]) = Raise e -> e = StructError).
Proof.
  split; [exact str_converts_20|].
  exact (encode_outcome 20 [glyph_a [x00]] str_converts_20).
Defined.

(** X12: [save] is not atomic.  For a [ysize] that [str] converts (at most
    4300 digits), when the first glyph with a field outside the range of a
    short comes after glyphs that fit, [save] raises [struct.error] after
    it has replaced the metrics file by the header and the records of the
    glyphs before that one. *)
Theorem save_partial_write {Image Kwargs}
    (Image_save : Image -> string -> Kwargs -> gmap string (list byte) ->
                  result unit * gmap string (list byte))
    (atlas0 : Image) (y : Z) (gs1 : list Glyph) (g : Glyph) (gs2 : list Glyph)
    (metrics_path : string) (image_kwargs : Kwargs)
    (fs : gmap string (list byte)) :
  str_converts y ->
  Forall Glyph_int16 gs1 -> ~ Glyph_int16 g ->
  encode y (gs1 ++ g :: gs2) =
    (Raise StructError,
     MAGIC ++ str_encode y ++ DATA ++ concat (map record_bytes gs1)) /\
  save Image_save (mkPILFont atlas0 y (gs1 ++ g :: gs2)) metrics_path None
       image_kwargs fs =
    (Raise StructError,
     <[metrics_path :=
         MAGIC ++ str_encode y ++ DATA ++ concat (map record_bytes gs1)]> fs).
Proof.
  intros _ H1 Hg.
  assert (E : encode y (gs1 ++ g :: gs2) =
              (Raise StructError,
               MAGIC ++ str_encode y ++ DATA ++ concat (map record_bytes gs1))).
  { unfold encode, save_metrics, bind.
    rewrite !fp_write_end by reflexivity.
    rewrite save_loop_partial by (assumption || reflexivity).
    cbn [data open_wb app]. rewrite <- !app_assoc. reflexivity. }
  split; [exact E|].
  unfold save, write_metrics. cbn [ysize glyphs].
  unfold encode in E.
  destruct (save_metrics y (gs1 ++ g :: gs2) open_wb) as [r fp].
  injection E as -> ->. reflexivity.
Qed.

Lemma save_partial_write_witness :
  str_converts 20 /\
  Forall Glyph_int16 [glyph_a [x00]] /\
  ~ Glyph_int16 (mkGlyph [x01] (40000, 0) (0, 0, 0, 0) (0, 0, 0, 0)) /\
  save unit_save
       (mkPILFont tt 20
          ([glyph_a [x00]] ++
           mkGlyph [x01] (40000, 0) (0, 0, 0, 0) (0, 0, 0, 0) ::
           [glyph_b [x02]]))
       "font.pil" None tt {[ "font.pil" := example_stream ]} =
    (Raise StructError,
     <[ "font.pil" :=
          MAGIC ++ str_encode 20 ++ DATA ++
          concat (map record_bytes [glyph_a [x00]]) ]>
       {[ "font.pil" := example_stream ]}).
Proof.
  assert (H1 : Forall Glyph_int16 [glyph_a [x00]]).
  { repeat constructor; unfold in_int16; cbn; lia. }
  assert (H2 : ~ Glyph_int16
                 (mkGlyph [x01] (40000, 0) (0, 0, 0, 0) (0, 0, 0, 0))).
  { intros H. apply Forall_cons in H as [H _]. unfold in_int16 in H. lia. }
  split; [exact str_converts_20|]. split; [exact H1|]. split; [exact H2|].
  exact (proj2 (save_partial_write unit_save tt 20 _ _ [glyph_b [x02]]
                  "font.pil" tt {[ "font.pil" := example_stream ]}
                  str_converts_20 H1 H2)).
Defined.

(** ** Loading what was saved *)

Lemma save_then_load_aux (y : Z) (gs : list Glyph) :
  Forall Glyph_int16 gs -> (length gs <= 256)%nat ->
  (is_Ok (decode (snd (encode y gs))) <->
   (-9 <= y <= -1 \/ 10 <= y <= 99)) /\
  (-9 <= y <= -1 \/ 10 <= y <= 99 ->
   decode (snd (encode y gs)) = Ok (y, renumber 0 gs)).
Proof.
  intros Hgs Hlen. rewrite encode_records by exact Hgs. cbn [snd].
  assert (Hback : -9 <= y <= -1 \/ 10 <= y <= 99 ->
            decode (MAGIC ++ str_encode y ++ DATA ++
                    concat (map record_bytes gs)) = Ok (y, renumber 0 gs)).
  { intros Hy. pose proof (str_encode_two_bytes y Hy) as Hl.
    destruct (int_of_str_two_bytes y Hl) as [Hi _].
    rewrite <- (app_nil_r (concat _)).
    rewrite decode_stream; [| exact Hl | | cbn; lia].
    - rewrite Hi, decode_records_renumber by (assumption || lia). reflexivity.
    - apply Forall_map. apply Forall_true. intros g. reflexivity. }
  split; [|exact Hback]. split; [|intros Hy; rewrite (Hback Hy); exact I].
  destruct (str_encode_chars y) as [Hne Hch].
  pose proof (int_of_str_two_bytes y) as H2.
  destruct (str_encode y) as [|c1 [|c2 [|c3 r]]].
  - contradiction.
  - pose proof (forall_byte_spec _ one_byte_field_fails_all c1) as F.
    unfold one_byte_field_fails in F.
    destruct (int_of_bytes [c1; x3b]) as [|e] eqn:E; [discriminate F|].
    rewrite (proj1 (decode_bad_field
                      (MAGIC ++ [c1] ++ DATA ++ concat (map record_bytes gs))
                      e eq_refl E)).
    intros [].
  - intros _. exact (proj2 (H2 eq_refl)).
  - set (s := MAGIC ++ (c1 :: c2 :: c3 :: r) ++ DATA ++
              concat (map record_bytes gs)).
    destruct (int_of_bytes (take 2 (drop 14 s))) as [y'|e] eqn:E.
    + assert (Hd : take 7 (drop 16 s) <> DATA).
      { intros Hd. injection Hd as Hc _.
        apply Forall_cons in Hch as [_ Hch].
        apply Forall_cons in Hch as [_ Hch].
        apply Forall_cons in Hch as [Hc3 _]. contradiction. }
      rewrite (proj1 (decode_bad_data_segment s y' eq_refl E Hd)). intros [].
    + rewrite (proj1 (decode_bad_field s e eq_refl E)). intros [].
Qed.

(** X13: for a table of at most 256 glyphs whose fields fit a short, the
    stream [save] writes is one [load] accepts exactly when [ysize] is from
    -9 to -1 or from 10 to 99, the values whose decimal text is two bytes;
    [load] then returns that [ysize] and the table numbered by position. *)
Theorem save_then_load_iff (y : Z) (gs : list Glyph) :
  Forall Glyph_int16 gs -> (length gs <= 256)%nat ->
  (is_Ok (decode (snd (encode y gs))) <->
   (-9 <= y <= -1 \/ 10 <= y <= 99)) /\
  (-9 <= y <= -1 \/ 10 <= y <= 99 ->
   decode (snd (encode y gs)) = Ok (y, renumber 0 gs)).
Proof.
  apply save_then_load_aux.
Qed.

Lemma save_then_load_iff_witness :
  Forall Glyph_int16 [glyph_a [x07]] /\
  (length [glyph_a [x07]] <= 256)%nat /\
  (-9 <= -3 <= -1 \/ 10 <= -3 <= 99) /\
  decode (snd (encode (-3) [glyph_a [x07]])) = Ok (-3, [glyph_a [x00]]).
Proof.
  assert (H1 : Forall Glyph_int16 [glyph_a [x07]]).
  { repeat constructor; unfold in_int16; cbn; lia. }
  assert (H2 : (length [glyph_a [x07]] <= 256)%nat) by (cbn; lia).
  assert (H3 : -9 <= -3 <= -1 \/ 10 <= -3 <= 99) by (left; lia).
  split; [exact H1|]. split; [exact H2|]. split; [exact H3|].
  exact (proj2 (save_then_load_iff (-3) _ H1 H2) H3).
Defined.

(** ** Indexing a loaded font *)

Lemma list_getitem_Ok {A} (l : list A) (index : Z) (x : A) :
  list_getitem l index = Ok x ->
  - Z.of_nat (length l) <= index < Z.of_nat (length l) /\
  l !! Z.to_nat (if index <? 0 then index + Z.of_nat (length l) else index)
    = Some x.
Proof.
  unfold list_getitem. set (n := Z.of_nat (length l)).
  set (i := if index <? 0 then index + n else index).
  destruct (Z.ltb_spec i 0); [discriminate|].
  destruct (Z.leb_spec n i); [discriminate|]. cbn [orb].
  destruct (l !! Z.to_nat i) as [x'|] eqn:E; [|discriminate].
  intros [= ->]. split; [|reflexivity].
  subst i. destruct (Z.ltb_spec index 0); lia.
Qed.

(** X14: in a font that [load] returned, [font[index]] is the glyph whose
    character code is [index], or [index] plus the number of glyphs when
    [index] is negative. *)
Theorem getitem_loaded {Image} (image : Image)
    (s : list byte) (y : Z) (gs : list Glyph) (index : Z) (g : Glyph) :
  decode s = Ok (y, gs) ->
  getitem (mkPILFont image y gs) index = Ok g ->
  exists c,
    character g = [c] /\
    Z_of_byte c =
      (if index <? 0 then index + Z.of_nat (length gs) else index).
Proof.
  intros Hs Hg.
  destruct (decode_Ok_stream s y gs Hs) as (_ & _ & _ & _ & _ & Hpos & Hlen).
  unfold getitem in Hg. cbn [glyphs] in Hg.
  apply list_getitem_Ok in Hg as [Hr Hl].
  rewrite (Hpos _ _ Hl). eexists. split; [reflexivity|].
  rewrite Z_of_byte_of_Z.
  destruct (Z.ltb_spec index 0); rewrite Z.mod_small; lia.
Qed.

Lemma getitem_loaded_witness :
  decode example_stream = Ok (20, [glyph_a [x00]; glyph_b [x01]]) /\
  getitem (mkPILFont tt 20 [glyph_a [x00]; glyph_b [x01]]) (-1)
    = Ok (glyph_b [x01]) /\
  exists c,
    character (glyph_b [x01]) = [c] /\
    Z_of_byte c = (if -1 <? 0 then -1 + Z.of_nat 2 else -1).
Proof.
  assert (H1 : decode example_stream
               = Ok (20, [glyph_a [x00]; glyph_b [x01]]))
    by (vm_compute; reflexivity).
  assert (H2 : getitem (mkPILFont tt 20 [glyph_a [x00]; glyph_b [x01]]) (-1)
               = Ok (glyph_b [x01])) by reflexivity.
  split; [exact H1|]. split; [exact H2|].
  exact (getitem_loaded tt _ _ _ _ _ H1 H2).
Defined.

(** ** [save] and [load] on the file system *)

(** X15: after a [save] whose image call, if any, succeeds, the file at
    [metrics_path] is the encoded stream, whatever was there before, and
    every other file is as the image library left it.  When the fields fit
    a short, the table has at most 256 glyphs and [ysize] is from -9 to -1
    or from 10 to 99, a [load] of that file gives the same [ysize] and the
    table numbered by position, with the copy of the atlas it opens. *)
Theorem save_then_load_files {Image Kwargs}
    (Image_open : string -> gmap string (list byte) -> result Image)
    (Image_copy : Image -> result Image)
    (Image_save : Image -> string -> Kwargs -> gmap string (list byte) ->
                  result unit * gmap string (list byte))
    (self : PILFont Image) (metrics_path atlas_path : string)
    (image_path : option string) (image_kwargs : Kwargs)
    (fs fs1 : gmap string (list byte)) (opened copied : Image) :
  match image_path with
  | Some path =>
      Image_save (atlas self) path image_kwargs fs = (Ok tt, fs1)
  | None => fs1 = fs
  end ->
  Forall Glyph_int16 (glyphs self) ->
  (length (glyphs self) <= 256)%nat ->
  -9 <= ysize self <= -1 \/ 10 <= ysize self <= 99 ->
  let fs2 := <[metrics_path := snd (encode (ysize self) (glyphs self))]> fs1 in
  save Image_save self metrics_path image_path image_kwargs fs = (Ok tt, fs2) /\
  (forall path, path <> metrics_path -> fs2 !! path = fs1 !! path) /\
  (Image_open atlas_path fs2 = Ok opened ->
   Image_copy opened = Ok copied ->
   load Image_open Image_copy metrics_path atlas_path fs2 =
     Ok (mkPILFont copied (ysize self) (renumber 0 (glyphs self)))).
Proof.
  intros Himg Hgs Hlen Hy fs2.
  assert (Hw : write_metrics self metrics_path fs1 = (Ok tt, fs2)).
  { unfold write_metrics, fs2.
    pose proof (encode_records (ysize self) (glyphs self) Hgs) as E.
    unfold encode in *.
    destruct (save_metrics (ysize self) (glyphs self) open_wb) as [r fp].
    injection E as -> E. cbn [snd]. reflexivity. }
  split; [|split].
  - unfold save. destruct image_path as [path|].
    + rewrite Himg. exact Hw.
    + subst fs1. exact Hw.
  - intros path Hp. unfold fs2. apply lookup_insert_ne. congruence.
  - intros Ho Hc. rewrite load_decode, Ho. unfold fs2 at 1.
    rewrite lookup_insert_eq.
    rewrite (proj2 (save_then_load_aux _ _ Hgs Hlen) Hy), Hc. reflexivity.
Qed.

Lemma save_then_load_files_witness :
  save unit_save (mkPILFont tt 20 [glyph_a [x41]; glyph_b [x42]]) "font.pil"
       None tt {[ "font.pil" := [x00] ]}
    = (Ok tt,
       <[ "font.pil" :=
            snd (encode 20 [glyph_a [x41]; glyph_b [x42]]) ]>
         {[ "font.pil" := [x00] ]}) /\
  load unit_open unit_copy "font.pil" "font.pbm"
       (<[ "font.pil" :=
             snd (encode 20 [glyph_a [x41]; glyph_b [x42]]) ]>
          {[ "font.pil" := [x00] ]})
    = Ok (mkPILFont tt 20 (renumber 0 [glyph_a [x41]; glyph_b [x42]])).
Proof.
  assert (H1 : Forall Glyph_int16 [glyph_a [x41]; glyph_b [x42]]).
  { repeat constructor; unfold in_int16; cbn; lia. }
  assert (H2 : (length [glyph_a [x41]; glyph_b [x42]] <= 256)%nat)
    by (cbn; lia).
  assert (H3 : -9 <= 20 <= -1 \/ 10 <= 20 <= 99) by (right; lia).
  pose proof (save_then_load_files unit_open unit_copy unit_save
                (mkPILFont tt 20 [glyph_a [x41]; glyph_b [x42]])
                "font.pil" "font.pbm" None tt
                {[ "font.pil" := [x00] ]} {[ "font.pil" := [x00] ]} tt tt
                eq_refl H1 H2 H3) as (Hs & _ & Hl).
  split; [exact Hs|]. exact (Hl eq_refl eq_refl).
Defined.

(** ** What the stream determines *)

(** X16: two streams that [load] turns into the same [ysize] and table are
    equal from offset 16 on and in the magic segment: they can differ in
    the two bytes of the size field only, and not even there when [ysize]
    is not from 0 to 9. *)
Theorem decode_injective (s1 s2 : list byte) (y : Z) (gs : list Glyph) :
  decode s1 = Ok (y, gs) -> decode s2 = Ok (y, gs) ->
  take 14 s1 = take 14 s2 /\ drop 16 s1 = drop 16 s2 /\
  (y < 0 \/ 10 <= y -> s1 = s2).
Proof.
  intros H1 H2.
  destruct (decode_Ok_stream s1 y gs H1) as (ys1 & -> & Hl1 & Hy1 & _).
  destruct (decode_Ok_stream s2 y gs H2) as (ys2 & -> & Hl2 & Hy2 & _).
  destruct ys1 as [|a1 [|b1 [|]]]; try discriminate Hl1.
  destruct ys2 as [|a2 [|b2 [|]]]; try discriminate Hl2.
  split; [reflexivity|]. split; [reflexivity|]. intros Hy.
  pose proof (field_ok_spec a1 b1) as F1. unfold field_ok in F1.
  pose proof (field_ok_spec a2 b2) as F2. unfold field_ok in F2.
  rewrite Hy1 in F1. rewrite Hy2 in F2.
  rewrite !andb_true_iff in F1, F2.
  destruct F1 as [_ F1], F2 as [_ F2].
  destruct ((0 <=? y) && (y <=? 9)) eqn:E; [lia|].
  apply bool_decide_eq_true in F1, F2. rewrite <- F1, <- F2. reflexivity.
Qed.

Lemma decode_injective_witness :
  decode (MAGIC ++ bytes_of_string "05" ++ DATA) = Ok (5, []) /\
  decode (MAGIC ++ bytes_of_string "+5" ++ DATA) = Ok (5, []) /\
  drop 16 (MAGIC ++ bytes_of_string "05" ++ DATA)
    = drop 16 (MAGIC ++ bytes_of_string "+5" ++ DATA).
Proof.
  assert (H1 : decode (MAGIC ++ bytes_of_string "05" ++ DATA) = Ok (5, []))
    by (vm_compute; reflexivity).
  assert (H2 : decode (MAGIC ++ bytes_of_string "+5" ++ DATA) = Ok (5, []))
    by (vm_compute; reflexivity).
  split; [exact H1|]. split; [exact H2|].
  exact (proj1 (proj2 (decode_injective _ _ _ _ H1 H2))).
Defined.

Lemma save_loop_same_fields (gs gs' : list Glyph) :
  Forall2 same_fields gs gs' ->
  forall fp, save_loop gs fp = save_loop gs' fp.
Proof.
  induction 1 as [|g g' gs gs' Hg Hgs IH]; intros fp; [reflexivity|].
  cbn [save_loop]. unfold bind, lift.
  assert (E : Glyph_iter g = Glyph_iter g').
  { destruct Hg as (Hd & Hb & Hs). unfold Glyph_iter.
    rewrite Hd, Hb, Hs. reflexivity. }
  rewrite E. destruct (struct_pack_10h (Glyph_iter g')); [|reflexivity].
  destruct (fp_write a fp) as [[u|e] fp']; [apply IH|reflexivity].
Qed.

(** X17: [save] never writes the [character] of a glyph: two tables whose
    glyphs agree, position by position, in [delta], [dst_bbox] and
    [src_bbox] are saved as the same stream, with the same outcome. *)
Theorem encode_ignores_character (y : Z) (gs gs' : list Glyph) :
  Forall2 same_fields gs gs' -> encode y gs = encode y gs'.
Proof.
  intros H. unfold encode, save_metrics, bind.
  destruct (fp_write MAGIC open_wb) as [[u1|e1] fp1]; [|reflexivity].
  destruct (fp_write (str_encode y) fp1) as [[u2|e2] fp2]; [|reflexivity].
  destruct (fp_write DATA fp2) as [[u3|e3] fp3]; [|reflexivity].
  rewrite (save_loop_same_fields gs gs' H). reflexivity.
Qed.

Lemma encode_ignores_character_witness :
  Forall2 same_fields [glyph_a [x41]; glyph_b []]
                      [glyph_a [x00]; glyph_b [x01]] /\
  encode 20 [glyph_a [x41]; glyph_b []]
    = encode 20 [glyph_a [x00]; glyph_b [x01]].
Proof.
  assert (H : Forall2 same_fields [glyph_a [x41]; glyph_b []]
                                  [glyph_a [x00]; glyph_b [x01]])
    by (repeat constructor).
  split; [exact H|]. exact (encode_ignores_character 20 _ _ H).
Defined.

Lemma str_encode_inj (y y' : Z) : str_encode y = str_encode y' -> y = y'.
Proof.
  unfold str_encode, bytes_of_string. intros H.
  apply (f_equal string_of_list_byte) in H.
  rewrite !string_of_list_byte_of_string in H.
  apply (f_equal NilZero.int_of_string) in H.
  assert (Hn : forall z, Z.to_int z <> Decimal.Pos Decimal.Nil /\
                         Z.to_int z <> Decimal.Neg Decimal.Nil).
  { intros [|p|p]; cbn; split; try discriminate;
      intros [= E]; exact (DecimalPos.Unsigned.to_uint_nonnil p E). }
  rewrite !NilZero.isi in H by apply Hn.
  injection H as H. apply DecimalZ.to_int_inj, H.
Qed.

Lemma split_at_semicolon (a a' r r' : list byte) :
  Forall (fun c => c <> x3b) a -> Forall (fun c => c <> x3b) a' ->
  a ++ x3b :: r = a' ++ x3b :: r' -> a = a' /\ r = r'.
Proof.
  intros Ha. revert a'. induction Ha as [|c a Hc Ha IH]; intros a' Ha' E.
  - destruct Ha' as [|c' a' Hc' Ha']; cbn in E.
    + injection E as ->. auto.
    + injection E as E _. congruence.
  - destruct Ha' as [|c' a' Hc' Ha']; cbn in E.
    + injection E as E _. congruence.
    + injection E as -> E. destruct (IH a' Ha' E) as [-> ->]. auto.
Qed.

Lemma concat_records_inj (gs gs' : list Glyph) :
  concat (map record_bytes gs) = concat (map record_bytes gs') ->
  map record_bytes gs = map record_bytes gs'.
Proof.
  revert gs'. induction gs as [|g gs IH]; intros [|g' gs'] E.
  - reflexivity.
  - apply (f_equal length) in E. rewrite !length_concat_records in E.
    cbn [length] in E. lia.
  - apply (f_equal length) in E. rewrite !length_concat_records in E.
    cbn [length] in E. lia.
  - cbn [map concat] in E. apply app_inj_1 in E as [E1 E2]; [|reflexivity].
    cbn [map]. rewrite E1, (IH gs' E2). reflexivity.
Qed.

Lemma be16_inj (v v' : Z) :
  in_int16 v -> in_int16 v' -> be16 v = be16 v' -> v = v'.
Proof.
  intros Hv Hv' E. rewrite <- (unpack_be16 v Hv), <- (unpack_be16 v' Hv').
  unfold be16 in E. injection E as -> ->. reflexivity.
Qed.

Lemma record_bytes_inj (g g' : Glyph) :
  Glyph_int16 g -> Glyph_int16 g' ->
  record_bytes g = record_bytes g' -> same_fields g g'.
Proof.
  destruct g as [c [dx dy] [[[sx0 sy0] sx1] sy1] [[[dx0 dy0] dx1] dy1]].
  destruct g' as [c' [ex ey] [[[tx0 ty0] tx1] ty1] [[[ex0 ey0] ex1] ey1]].
  unfold Glyph_int16, Glyph_iter, record_bytes, same_fields.
  cbn [delta dst_bbox src_bbox fst snd].
  intros H H' E.
  repeat (apply Forall_cons in H as [? H]).
  repeat (apply Forall_cons in H' as [? H']).
  repeat match type of E with
         | be16 ?v ++ _ = be16 ?w ++ _ =>
             let E1 := fresh "E" in
             apply app_inj_1 in E as [E1 E]; [|reflexivity];
             apply be16_inj in E1; [subst v | assumption | assumption]
         end.
  apply be16_inj in E; [subst|assumption|assumption]. auto.
Qed.

(** X18: [save] loses nothing but the characters.  When two saves succeed
    and write the same stream, the two [ysize] are equal and the tables
    have the same length and, position by position, the same [delta],
    [dst_bbox] and [src_bbox]. *)
Theorem encode_injective (y y' : Z) (gs gs' : list Glyph) (s : list byte) :
  encode y gs = (Ok tt, s) -> encode y' gs' = (Ok tt, s) ->
  y = y' /\ Forall2 same_fields gs gs'.
Proof.
  intros H H'.
  assert (Hgs : Forall Glyph_int16 gs).
  { destruct (encode_cases y gs) as [[_ Hall]|[Hr _]]; [exact Hall|].
    rewrite H in Hr. discriminate Hr. }
  assert (Hgs' : Forall Glyph_int16 gs').
  { destruct (encode_cases y' gs') as [[_ Hall]|[Hr _]]; [exact Hall|].
    rewrite H' in Hr. discriminate Hr. }
  rewrite encode_records in H, H' by assumption.
  injection H as <-. injection H' as E.
  apply split_at_semicolon in E as [Ey Er];
    [|apply str_encode_chars|apply str_encode_chars].
  split; [symmetry; apply str_encode_inj, Ey|].
  injection Er as Er. symmetry in Er.
  apply concat_records_inj in Er.
  clear Ey. revert gs' Hgs' Er.
  induction Hgs as [|g gs Hg Hgs IH]; intros [|g' gs'] Hgs' Er;
    try discriminate Er; [constructor|].
  apply Forall_cons in Hgs' as [Hg' Hgs'].
  cbn [map] in Er.
  pose proof (f_equal (fun l => match l with x :: _ => x | [] => [] end) Er)
    as Eg.
  pose proof (f_equal (fun l => match l with _ :: l' => l' | [] => [] end) Er)
    as Et.
  cbv beta iota in Eg, Et.
  constructor; [apply record_bytes_inj; assumption|apply IH; assumption].
Qed.

Lemma encode_injective_witness :
  encode 20 [glyph_a [x41]] = (Ok tt, snd (encode 20 [glyph_a [x00]])) /\
  encode 20 [glyph_a [x00]] = (Ok tt, snd (encode 20 [glyph_a [x00]])) /\
  20 = 20 /\ Forall2 same_fields [glyph_a [x41]] [glyph_a [x00]].
Proof.
  assert (H1 : encode 20 [glyph_a [x41]]
               = (Ok tt, snd (encode 20 [glyph_a [x00]])))
    by (vm_compute; reflexivity).
  assert (H2 : encode 20 [glyph_a [x00]]
               = (Ok tt, snd (encode 20 [glyph_a [x00]])))
    by (vm_compute; reflexivity).
  split; [exact H1|]. split; [exact H2|].
  exact (encode_injective _ _ _ _ _ H1 H2).
Defined.

(** X19: the streams [load] accepts.  A stream loads exactly when it is the
    magic segment, two bytes that [int] reads, the data segment and then
    [20 * n] bytes with [n] at most 256. *)
Theorem decode_accepts_iff (s : list byte) :
  is_Ok (decode s) <->
  exists ys rest n,
    s = MAGIC ++ ys ++ DATA ++ rest /\ length ys = 2%nat /\
    is_Ok (int_of_bytes ys) /\
    length rest = (20 * n)%nat /\ (n <= 256)%nat.
Proof.
  split.
  - destruct (decode s) as [[y gs]|] eqn:E; [intros _|intros []].
    destruct (decode_Ok_stream s y gs E) as (ys & Hs & Hl & Hy & _ & _ & Hn).
    exists ys, (concat (map record_bytes gs)), (length gs).
    split; [exact Hs|]. split; [exact Hl|]. rewrite Hy.
    split; [exact I|]. split; [apply length_concat_records|exact Hn].
  - intros (ys & rest & n & -> & Hl & Hy & Hr & Hn).
    destruct (int_of_bytes ys) as [y|] eqn:E; [|destruct Hy].
    destruct (chunks_of n rest 0) as (records & tail & -> & Hall & Hlen & Ht);
      [lia|lia|].
    destruct tail; [|discriminate Ht].
    rewrite decode_stream by (assumption || cbn; lia). rewrite E.
    destruct (decode_records_Ok records Hall 0) as (gs & -> & _); [lia|].
    exact I.
Qed.
